(** * Usage-stats reporter (pkg/usagestats/reporter.go)

    A shallow embedding of the reporter: the report schedule
    ([nextReport], the tick loop of [running]), the bounded retry envelope
    of [reportUsage], and the seed negotiation of [initLeader], [init] and
    [fetchSeed] against a key-value store and an object store. *)

From Stdlib Require Import ZArith List String Bool Lia.
From Stdlib Require Import Floats.SpecFloat.
Import ListNotations.
Local Open Scope Z_scope.

(** ** Machine integers, durations and instants *)

(** Go's [int64]: [wrap64] is the two's-complement wrap-around of an
    arithmetic result. *)
Definition minInt64 : Z := - 2 ^ 63.
Definition maxInt64 : Z := 2 ^ 63 - 1.

Definition wrap64 (z : Z) : Z := (z + 2 ^ 63) mod 2 ^ 64 - 2 ^ 63.

Definition in_int64 (z : Z) : Prop := minInt64 <= z <= maxInt64.

(** [time.Duration] is an [int64] count of nanoseconds. *)
Definition Duration : Type := Z.

Definition Nanosecond : Duration := 1.
Definition Second : Duration := 1000000000.
Definition Minute : Duration := 60 * Second.
Definition Hour : Duration := 60 * Minute.

Definition minDuration : Duration := minInt64.
Definition maxDuration : Duration := maxInt64.

(** [Duration * Duration] as the compiler emits it: an [int64] product. *)
Definition dmul (a b : Duration) : Duration := wrap64 (a * b).

(** [time.Time]: an instant, counted in nanoseconds from the zero instant
    of the [time] package (the one [IsZero] recognises).  One clock is
    modelled; the range of [Time] (64-bit seconds) is far wider than that
    of [Duration] and is left unbounded. *)
Definition Time : Type := Z.

Definition zeroTime : Time := 0.

(** [t.IsZero()] *)
Definition IsZero (t : Time) : bool := t =? zeroTime.

(** [t.Add(d)] *)
Definition Add (t : Time) (d : Duration) : Time := t + d.

(** [t.Sub(u)]: the difference, saturated to the range of [Duration]. *)
Definition Sub (t u : Time) : Duration :=
  if t - u <? minDuration then minDuration
  else if maxDuration <? t - u then maxDuration
  else t - u.

(** [t.Equal(u)] *)
Definition Equal (t u : Time) : bool := t =? u.

(** ** IEEE 754 binary64, as far as [nextReport] uses it *)

Definition prec64 : Z := 53.
Definition emax64 : Z := 1024.

Definition float64 : Type := spec_float.

(** [float64(x)] for an [int64] [x]: rounded to nearest, ties to even. *)
Definition float64_of_int64 (x : Z) : float64 :=
  binary_normalize prec64 emax64 x 0 false.

(** [a / b] on [float64]. *)
Definition fdiv (a b : float64) : float64 := SFdiv prec64 emax64 a b.

(** The least integer not below [m * 2 ^ e] ([m] a natural number). *)
Definition ceil_scaled (m e : Z) : Z :=
  if 0 <=? e then m * 2 ^ e else - ((- m) / 2 ^ (- e)).

(** The greatest integer not above [m * 2 ^ e]. *)
Definition floor_scaled (m e : Z) : Z :=
  if 0 <=? e then m * 2 ^ e else m / 2 ^ (- e).

(** [math.Ceil]: infinities, NaN and zeros are returned as they are; a
    finite value becomes the least integer not below it, which binary64
    represents exactly, a negative fraction above -1 becoming -0. *)
Definition Ceil (x : float64) : float64 :=
  match x with
  | S754_finite s m e =>
      let z := if s then - floor_scaled (Zpos m) e else ceil_scaled (Zpos m) e in
      if z =? 0 then S754_zero s
      else binary_normalize prec64 emax64 z 0 s
  | _ => x
  end.

(** [int64(f)] for a [float64] [f]: truncation toward zero.  The language
    leaves the result open when the value does not fit; this is what amd64
    produces (the "integer indefinite" value), also for NaN and the
    infinities. *)
Definition int64_of_float64 (x : float64) : Z :=
  match x with
  | S754_zero _ => 0
  | S754_finite s m e =>
      let z := floor_scaled (Zpos m) e in
      let z := if s then - z else z in
      if (minInt64 <=? z) && (z <=? maxInt64) then z else minInt64
  | _ => minInt64
  end.

(** ** The report schedule *)

(** [nextReport]:
    [createdAt.Add(time.Duration(math.Ceil(float64(now.Sub(createdAt))/float64(interval))) * interval)] *)
Definition nextReport (interval : Duration) (createdAt now : Time) : Time :=
  Add createdAt
      (dmul (int64_of_float64
               (Ceil (fdiv (float64_of_int64 (Sub now createdAt))
                           (float64_of_int64 interval))))
            interval).

(** ** Seeds, errors and the two stores *)

(** Modelled from the spec: [ClusterSeed] (section 3), which the package
    declares in another file, with the fields the reporter reads and
    writes. *)
Record ClusterSeed : Type := mkClusterSeed {
  UID : string;
  PrometheusVersion : string;
  CreatedAt : Time
}.

(** The errors that reach this file. *)
#[warnings="-register-all"]
Inductive error : Type :=
| ErrObjectNotFound          (* the object client's "not found" *)
| ErrDecode                  (* [JSONCodec.Decode] rejected the bytes *)
| ErrIO                      (* any other failure of the object client *)
| ErrKV                      (* the key-value client failed *)
| ErrContext                 (* [backoff.Err()]: the context is done *)
| ErrSend (attempt : nat)    (* [sendReport] failed on that attempt *)
| ErrMulti (errs : list error). (* a non-empty [multierror.MultiError] *)

(** [objectClient.IsObjectNotFoundErr] *)
Definition IsObjectNotFoundErr (err : error) : bool :=
  match err with
  | ErrObjectNotFound => true
  | _ => false
  end.

(** File name for the cluster seed file. *)
Definition ClusterSeedFileName : string := "loki_cluster_seed.json".
(** How many times a corrupted cluster seed is read before deleting it. *)
Definition attemptNumber : Z := 4.
(** The key for the cluster seed in the kv store. *)
Definition seedKey : string := "usagestats_token".

Definition reportCheckInterval : Duration := Minute.
Definition reportInterval : Duration := 1 * Hour.

Record Config : Type := mkConfig {
  Disabled : bool;
  Leader : bool
}.

(** The fields of [Reporter] that hold state; the clients are the
    [World] below. *)
Record Reporter : Type := mkReporter {
  conf : Config;
  cluster : option ClusterSeed;   (* [*ClusterSeed], [None] for nil *)
  lastReport : Time
}.

(** [NewReporter]: nil when disabled, otherwise a reporter with no
    cluster and a zero [lastReport]. *)
Definition NewReporter (config : Config) : option Reporter :=
  if Disabled config then None
  else Some {| conf := config; cluster := None; lastReport := zeroTime |}.

(** What the callback of [CAS] finds under [seedKey]: a [*ClusterSeed],
    or a value of some other type. *)
Inductive KVValue : Type :=
| KVSeed (s : ClusterSeed)
| KVForeign.

(** Modelled from the spec: the codec ([JSONCodec], declared elsewhere in
    the package).  An object is either the encoding of a seed, which
    decodes to that seed, or bytes that [Decode] rejects. *)
Inductive Object : Type :=
| Encoded (s : ClusterSeed)
| Malformed.

(** The shared stores: the value under [seedKey] and the object named
    [ClusterSeedFileName]. *)
Record World : Type := mkWorld {
  kvs : option KVValue;
  object : option Object
}.

(** ** The election callback *)

(** What the closure passed to [CAS] returns, with the value its captured
    variable [seed] holds afterwards. *)
Record CallbackResult : Type := mkCallbackResult {
  cb_seed : ClusterSeed;
  cb_out : option ClusterSeed;
  cb_retry : bool;
  cb_err : option error
}.

(** The closure of [initLeader], lines 93-101; [seed] is the captured
    variable, [in_] the current value of the key ([None] for nil). *)
Definition casCallback (seed : ClusterSeed) (in_ : option KVValue) : CallbackResult :=
  match in_ with
  | Some (KVSeed kvSeed) =>
      if negb (String.eqb (UID kvSeed) (UID seed))
      then {| cb_seed := kvSeed; cb_out := None; cb_retry := false; cb_err := None |}
      else {| cb_seed := seed; cb_out := Some seed; cb_retry := true; cb_err := None |}
  | _ => {| cb_seed := seed; cb_out := Some seed; cb_retry := true; cb_err := None |}
  end.

(** Modelled from the spec: [kvClient.CAS] (section 6, "atomic
    read-modify-write").  When the store is unavailable it fails and
    changes nothing; otherwise the callback runs on the current value, a
    nil [out] leaves the key as it is and any other [out] is stored.  A
    store may call the closure again after a conflict; the closure above
    only changes its [seed] on a call that returns nil, which is the last
    one, so one call on the value current at that moment stands for all. *)
Definition CAS (unavailable : bool) (current : option KVValue)
    (f : option KVValue -> CallbackResult) : option KVValue * option error :=
  if unavailable then (current, Some ErrKV)
  else
    let r := f current in
    match cb_err r with
    | Some e => (current, Some e)
    | None =>
        match cb_out r with
        | None => (current, None)
        | Some out => (Some (KVSeed out), None)
        end
    end.

(** The election of [initLeader], lines 93-105: one [CAS] on [seedKey]
    with the closure above.  It returns the new value of the key and
    either the error of [CAS] or the seed the loop goes on with together
    with whether this call proposed its candidate ([out] was not nil). *)
Definition electOrAdopt (unavailable : bool) (current : option KVValue)
    (candidate : ClusterSeed)
  : option KVValue * (error + ClusterSeed * bool) :=
  match CAS unavailable current (casCallback candidate) with
  | (kv', Some e) => (kv', inl e)
  | (kv', None) =>
      let r := casCallback candidate current in
      (kv', inr (cb_seed r, match cb_out r with Some _ => true | None => false end))
  end.

(** ** The object store calls *)

(** [readSeedFile]: [GetObject], [io.ReadAll], [JSONCodec.Decode].
    [fault] stands for a failure of the first two that is not "not found". *)
Definition readSeedFile (fault : bool) (w : World) : ClusterSeed + error :=
  if fault then inr ErrIO
  else
    match object w with
    | None => inr ErrObjectNotFound
    | Some Malformed => inr ErrDecode
    | Some (Encoded s) => inl s
    end.

(** [writeSeedFile]: [JSONCodec.Encode] and [PutObject]; [fault] stands
    for a failure of either, which leaves the object as it was. *)
Definition writeSeedFile (fault : bool) (w : World) (seed : ClusterSeed)
  : World * option error :=
  if fault then (w, Some ErrIO)
  else ({| kvs := kvs w; object := Some (Encoded seed) |}, None).

(** [objectClient.DeleteObject] on [ClusterSeedFileName]. *)
Definition DeleteObject (fault : bool) (w : World) : World * option error :=
  if fault then (w, Some ErrIO)
  else ({| kvs := kvs w; object := None |}, None).

(** ** Seed resolution as a machine *)

(** Who called [fetchSeed]: [initLeader], holding its [seed] and passing
    the [continueFn] of lines 108-111, or [init] on the follower path,
    passing nil. *)
Inductive caller : Type :=
| LeaderCall (seed : ClusterSeed)
| FollowerCall.

(** The program points of [init] at which the next thing to happen is a
    call to a store, and its end. *)
Inductive pstate : Type :=
| AtElect                                  (* [initLeader], head of the loop body *)
| AtRead (k : caller) (readingErr : Z)     (* [fetchSeed], [backoff.Ongoing()] *)
| AtDelete (k : caller) (err : error)      (* [fetchSeed], the [DeleteObject] call *)
| AtWrite (seed : ClusterSeed)             (* [initLeader], the [writeSeedFile] call *)
| Resolved (cl : option ClusterSeed).      (* [init] returned, [rep.cluster] is set *)

(** What the surroundings decide for one step: the values of
    [uuid.NewString()], [build.GetVersion()] and [time.Now()], whether the
    store call of the step fails, and whether the context is done when
    [backoff.Ongoing()] looks at it. *)
Record Env : Type := mkEnv {
  env_uid : string;
  env_version : string;
  env_now : Time;
  env_fault : bool;
  env_cancelled : bool
}.

(** The store calls a step makes, as they are seen from outside. *)
Inductive call : Type :=
| CallCAS (wrote : option ClusterSeed) (err : option error)
| CallGet (r : ClusterSeed + error)
| CallDelete (err : option error)
| CallPut (seed : ClusterSeed) (err : option error).

(** [continueFn == nil || continueFn(err)] *)
Definition continueFn (k : caller) (err : error) : bool :=
  match k with
  | FollowerCall => true
  | LeaderCall _ => negb (IsObjectNotFoundErr err)
  end.

(** Where control goes when [fetchSeed] returns [r] to its caller:
    lines 112-123 of [initLeader], lines 134-135 of [init]. *)
Definition fetchReturn (k : caller) (r : ClusterSeed + error) : pstate :=
  match k with
  | LeaderCall seed =>
      match r with
      | inr err => if IsObjectNotFoundErr err then AtWrite seed else AtElect
      | inl remoteSeed => Resolved (Some remoteSeed)
      end
  | FollowerCall =>
      match r with
      | inr _ => Resolved None
      | inl seed => Resolved (Some seed)
      end
  end.

(** Lines 162-165 of [fetchSeed]: go round the loop again or return [err]. *)
Definition afterReadError (k : caller) (readingErr : Z) (err : error) : pstate :=
  if continueFn k err then AtRead k readingErr else fetchReturn k (inr err).

(** One step of [init]: from a program point, through one store call, to
    the next program point. *)
Definition step (w : World) (p : pstate) (e : Env) : World * pstate * list call :=
  match p with
  | AtElect =>
      (* [initLeader], lines 88-105 *)
      let seed := {| UID := env_uid e; PrometheusVersion := env_version e;
                     CreatedAt := env_now e |} in
      match electOrAdopt (env_fault e) (kvs w) seed with
      | (_, inl err) => (w, AtElect, [CallCAS None (Some err)])
      | (kv', inr (seed', elected)) =>
          ({| kvs := kv'; object := object w |},
           AtRead (LeaderCall seed') 0,
           [CallCAS (if elected then Some seed else None) None])
      end
  | AtRead k readingErr =>
      (* [fetchSeed], lines 149-156 and 162-169 *)
      if env_cancelled e then (w, fetchReturn k (inr ErrContext), [])
      else
        match readSeedFile (env_fault e) w with
        | inr err =>
            let readingErr :=
              if negb (IsObjectNotFoundErr err) then readingErr + 1 else readingErr in
            if attemptNumber <? readingErr
            then (w, AtDelete k err, [CallGet (inr err)])
            else (w, afterReadError k readingErr err, [CallGet (inr err)])
        | inl seed => (w, fetchReturn k (inl seed), [CallGet (inl seed)])
        end
  | AtDelete k err =>
      (* [fetchSeed], lines 157-165 *)
      let '(w', derr) := DeleteObject (env_fault e) w in
      (w', afterReadError k 0 err, [CallDelete derr])
  | AtWrite seed =>
      (* [initLeader], lines 115-119 *)
      match writeSeedFile (env_fault e) w seed with
      | (w', Some err) => (w', AtElect, [CallPut seed (Some err)])
      | (w', None) => (w', Resolved (Some seed), [CallPut seed None])
      end
  | Resolved cl => (w, Resolved cl, [])
  end.

(** Where [init] starts: [initLeader] for a leader, [fetchSeed] with a nil
    [continueFn] for a follower. *)
Definition init_start (c : Config) : pstate :=
  if Leader c then AtElect else AtRead FollowerCall 0.

(** One process running alone through a list of steps; the calls come out
    oldest first. *)
Fixpoint run (w : World) (p : pstate) (es : list Env) : World * pstate * list call :=
  match es with
  | [] => (w, p, [])
  | e :: es' =>
      let '(w1, p1, c1) := step w p e in
      let '(w2, p2, c2) := run w1 p1 es' in
      (w2, p2, c1 ++ c2)
  end.

(** [initLeader] from its entry, through the steps [es]. *)
Definition initLeader (w : World) (es : list Env) : World * pstate * list call :=
  run w AtElect es.

(** [fetchSeed] from its entry, where [readingErr] is 0, through the
    steps [es]; [k] says who called it and so what [continueFn] is. *)
Definition fetchSeed (k : caller) (w : World) (es : list Env) : World * pstate * list call :=
  run w (AtRead k 0) es.

(** [init], for the steps [es]: [rep.cluster] is set when it returns,
    and [None] says that it has not returned within [es]. *)
Definition init (rep : Reporter) (w : World) (es : list Env) : option (World * Reporter) :=
  match run w (init_start (conf rep)) es with
  | (w', Resolved cl, _) =>
      Some (w', {| conf := conf rep; cluster := cl; lastReport := lastReport rep |})
  | _ => None
  end.

(** ** Several processes on the same stores *)

(** A cluster: the stores, the program point of every process (indexed by
    a number), the UIDs [uuid.NewString()] has handed out, and the store
    calls made so far, newest first, each with the process that made it. *)
Record System : Type := mkSystem {
  world : World;
  procs : nat -> pstate;
  issued : list string;
  history : list (nat * call)
}.

Definition update (f : nat -> pstate) (i : nat) (p : pstate) : nat -> pstate :=
  fun j => if Nat.eqb j i then p else f j.

Definition is_AtElect (p : pstate) : bool :=
  match p with AtElect => true | _ => false end.

Definition mem (u : string) (l : list string) : bool := existsb (String.eqb u) l.

(** Process [i] takes one step.  [uuid.NewString()] never returns a UID
    it has returned before: a step that would is not a step. *)
Definition sys_step (s : System) (i : nat) (e : Env) : option System :=
  if is_AtElect (procs s i) && mem (env_uid e) (issued s) then None
  else
    let '(w', p', cs) := step (world s) (procs s i) e in
    Some {| world := w';
            procs := update (procs s) i p';
            issued := if is_AtElect (procs s i) then env_uid e :: issued s
                      else issued s;
            history := map (pair i) (rev cs) ++ history s |}.

(** A schedule: which process steps, and with what surroundings. *)
Fixpoint sys_run (s : System) (sched : list (nat * Env)) : option System :=
  match sched with
  | [] => Some s
  | (i, e) :: rest =>
      match sys_step s i e with
      | None => None
      | Some s' => sys_run s' rest
      end
  end.

(** The cluster before any process has taken a step, on the stores [w];
    process [i] has the role [roles i]. *)
Definition sys_init (w : World) (roles : nat -> Config) : System :=
  {| world := w;
     procs := fun i => init_start (roles i);
     issued := [];
     history := [] |}.

(** Neither the key nor the object exists. *)
Definition fresh_world : World := {| kvs := None; object := None |}.

Definition leaderConfig : Config := {| Disabled := false; Leader := true |}.
Definition followerConfig : Config := {| Disabled := false; Leader := false |}.

(** The newest call of process [i] in a history. *)
Fixpoint last_call_of (i : nat) (h : list (nat * call)) : option call :=
  match h with
  | [] => None
  | (j, c) :: t => if Nat.eqb i j then Some c else last_call_of i t
  end.

(** Every [PutObject] in the history comes right after a read by the same
    process that returned "not found". *)
Fixpoint puts_guarded (h : list (nat * call)) : Prop :=
  match h with
  | [] => True
  | (i, c) :: t =>
      match c with
      | CallPut _ _ => last_call_of i t = Some (CallGet (inr ErrObjectNotFound))
      | _ => True
      end /\ puts_guarded t
  end.

(** The seed a program point carries towards the result of [init]. *)
Definition carried (p : pstate) : option ClusterSeed :=
  match p with
  | AtRead (LeaderCall s) _ => Some s
  | AtDelete (LeaderCall s) _ => Some s
  | AtWrite s => Some s
  | Resolved (Some s) => Some s
  | _ => None
  end.

(** ** Sending a report *)

(** Modelled from the spec: the backoff policy (section 4.1; the package
    [backoff] of dskit).  [Ongoing] permits another attempt while the
    context is not done and the cap, if there is one, is not reached;
    [Wait] sleeps for the current delay, which starts at [MinBackoff],
    doubles and is capped at [MaxBackoff], and advances. *)
Record BackoffConfig : Type := mkBackoffConfig {
  MinBackoff : Duration;
  MaxBackoff : Duration;
  MaxRetries : Z
}.

(** Modelled from the spec: the state of a backoff, its configuration and
    the number of waits so far. *)
Record Backoff : Type := mkBackoff {
  cfg : BackoffConfig;
  numRetries : Z
}.

(** Modelled from the spec: [backoff.New]. *)
Definition backoff_New (c : BackoffConfig) : Backoff :=
  {| cfg := c; numRetries := 0 |}.

(** Modelled from the spec: [Ongoing], with [done] saying whether the
    context is done; [MaxRetries = 0] is no cap. *)
Definition Ongoing (done : bool) (b : Backoff) : bool :=
  negb done && ((MaxRetries (cfg b) =? 0) || (numRetries b <? MaxRetries (cfg b))).

(** Modelled from the spec: the current delay. *)
Definition delay (b : Backoff) : Duration :=
  Z.min (MaxBackoff (cfg b)) (MinBackoff (cfg b) * 2 ^ numRetries b).

(** Modelled from the spec: [Wait], returning the delay it slept for. *)
Definition Wait (b : Backoff) : Backoff * Duration :=
  ({| cfg := cfg b; numRetries := numRetries b + 1 |}, delay b).

(** Modelled from the spec: [NumRetries]. *)
Definition NumRetries (b : Backoff) : Z := numRetries b.

(** [multierror.MultiError.Err()]: nil when nothing was added. *)
Definition multi_Err (errs : list error) : option error :=
  match errs with
  | [] => None
  | _ => Some (ErrMulti errs)
  end.

(** The configuration [reportUsage] builds its backoff from. *)
Definition reportBackoff : BackoffConfig :=
  {| MinBackoff := Second; MaxBackoff := 30 * Second; MaxRetries := 5 |}.

(** What one call of [reportUsage] did: the error it returned, how many
    times it called [sendReport], and the delays it waited for. *)
Record ReportRun : Type := mkReportRun {
  ru_err : option error;
  ru_sent : nat;
  ru_waits : list Duration
}.

(** The loop of [reportUsage].  [send k] is what [sendReport] returns on
    the call made after [k] waits, [done k] whether the context is done at
    the [Ongoing] check made after [k] waits.  [None] when [fuel] rounds
    do not reach a [return]. *)
Fixpoint reportUsage_loop (fuel : nat) (send : Z -> option error) (done : Z -> bool)
    (b : Backoff) (errs : list error) (sent : nat) (waits : list Duration)
  : option ReportRun :=
  match fuel with
  | O => None
  | S fuel' =>
      if Ongoing (done (NumRetries b)) b then
        match send (NumRetries b) with
        | Some err =>
            let '(b', d) := Wait b in
            reportUsage_loop fuel' send done b' (errs ++ [err]) (S sent) (waits ++ [d])
        | None => Some {| ru_err := None; ru_sent := S sent; ru_waits := waits |}
        end
      else Some {| ru_err := multi_Err errs; ru_sent := sent; ru_waits := waits |}
  end.

(** [reportUsage] *)
Definition reportUsage (fuel : nat) (send : Z -> option error) (done : Z -> bool)
  : option ReportRun :=
  reportUsage_loop fuel send done (backoff_New reportBackoff) [] O [].

(** ** The service loop *)

(** The variables of [running] after [init]: [next] and the reporter. *)
Record RunState : Type := mkRunState {
  next : Time;
  rs_lastReport : Time
}.

(** A nil pointer dereference ends the process. *)
Inductive outcome (A : Type) : Type :=
| Returned (a : A)
| Panicked.
Arguments Returned {A} a.
Arguments Panicked {A}.

(** [running], lines 214-219, with [reportInterval] as [interval] and
    [time.Now()] as [now]: [rep.cluster.CreatedAt] is read whatever [init]
    left in [rep.cluster]. *)
Definition running_start (interval : Duration) (rep : Reporter) (now : Time)
  : outcome RunState :=
  match cluster rep with
  | None => Panicked
  | Some cl =>
      let next := nextReport interval (CreatedAt cl) now in
      Returned {| next := next;
                  rs_lastReport := if IsZero (lastReport rep)
                                   then Add next (- interval)
                                   else lastReport rep |}
  end.

(** The test of line 224: this tick does nothing. *)
Definition notDue (interval : Duration) (st : RunState) (now : Time) : bool :=
  negb (Equal (next st) now) && (Sub now (rs_lastReport st) <? interval).

Definition due (interval : Duration) (st : RunState) (now : Time) : bool :=
  negb (notDue interval st now).

(** What a tick did. *)
Inductive TickResult : Type :=
| TickIdle                       (* not due *)
| TickFailed (err : error)       (* [reportUsage] returned an error *)
| TickReported.                  (* [reportUsage] returned nil *)

(** The ticker case of the loop, lines 222-233; [report] is the run of
    [reportUsage] this tick would make. *)
Definition tick (interval : Duration) (st : RunState) (now : Time) (report : ReportRun)
  : RunState * TickResult :=
  if notDue interval st now then (st, TickIdle)
  else
    match ru_err report with
    | Some err => (st, TickFailed err)
    | None =>
        ({| next := Add (next st) interval; rs_lastReport := next st |}, TickReported)
    end.

(** What [select] picks in one round of the loop. *)
Inductive LoopEvent : Type :=
| Tick (now : Time) (report : ReportRun)
| CtxDone.

(** The loop of [running], lines 220-237: [Some err] when it returned
    ([ctx.Err()]), [None] while it is still going after [evs]. *)
Fixpoint running_loop (interval : Duration) (st : RunState) (evs : list LoopEvent)
  : RunState * option error :=
  match evs with
  | [] => (st, None)
  | Tick now report :: evs' => running_loop interval (fst (tick interval st now report)) evs'
  | CtxDone :: _ => (st, Some ErrContext)
  end.

(** [running]: [init] through the steps [es], then the loop. *)
Definition running (interval : Duration) (rep : Reporter) (w : World) (es : list Env)
    (now : Time) (evs : list LoopEvent)
  : option (outcome (RunState * option error)) :=
  match init rep w es with
  | None => None
  | Some (_, rep') =>
      match running_start interval rep' now with
      | Panicked => Some Panicked
      | Returned st => Some (Returned (running_loop interval st evs))
      end
  end.

(** ** Surroundings and statements used below *)

(** A step on which nothing goes wrong: the store call succeeds and the
    context is not done. *)
Definition quiet (e : Env) : bool := negb (env_fault e) && negb (env_cancelled e).

Definition idle : Env :=
  {| env_uid := ""; env_version := ""; env_now := 0;
     env_fault := false; env_cancelled := false |}.

(** The same step with the context done. *)
Definition cancelled (e : Env) : Env :=
  {| env_uid := env_uid e; env_version := env_version e; env_now := env_now e;
     env_fault := env_fault e; env_cancelled := true |}.

(** A leader that finds under the key a seed with another UID resolves to
    the UID of that seed, whatever the object store holds. *)
Definition leader_resolves_to_stored_uid : Prop :=
  forall w stored e es w' r cs,
    kvs w = Some (KVSeed stored) ->
    UID stored <> env_uid e ->
    env_fault e = false ->
    initLeader w (e :: es) = (w', Resolved (Some r), cs) ->
    UID r = UID stored.

(** Two leaders racing for an absent key: the UID of the seed object is
    the UID of one of the candidates, whatever the object store held. *)
Definition race_persists_a_candidate : Prop :=
  forall w sched s b,
    kvs w = None ->
    sys_run (sys_init w (fun _ => leaderConfig)) sched = Some s ->
    object (world s) = Some (Encoded b) ->
    In (UID b) (issued s).

(** Where a leader can be while the context is done. *)
Definition spinning (p : pstate) : bool :=
  match p with
  | AtElect => true
  | AtRead (LeaderCall _) _ => true
  | _ => false
  end.

(** The states the loop of [running] goes through when the reporter
    starts, as [NewReporter] leaves it, with a zero [lastReport]. *)
Inductive scheduled (interval : Duration) : RunState -> Prop :=
| scheduled_start (rep : Reporter) (now : Time) (st : RunState) :
    IsZero (lastReport rep) = true ->
    running_start interval rep now = Returned st ->
    scheduled interval st
| scheduled_tick (st : RunState) (now : Time) (report : ReportRun) :
    scheduled interval st ->
    scheduled interval (fst (tick interval st now report)).

(** The errors of the first [n] calls of [sendReport], in order. *)
Definition failures (send : Z -> option error) (n : nat) : list error :=
  flat_map (fun k => match send (Z.of_nat k) with
                     | Some err => [err]
                     | None => []
                     end) (seq 0 n).

(** What [fetchSeed] keeps true at its program points: the count of
    failed reads is at most [attemptNumber] at the head of the loop, and
    the error that led to [DeleteObject] is not "not found". *)
Definition pstate_ok (p : pstate) : Prop :=
  match p with
  | AtRead _ n => 0 <= n <= attemptNumber
  | AtDelete _ err => IsObjectNotFoundErr err = false
  | _ => True
  end.

(** The processes of a cluster agree on one seed: the key holds a seed
    proposed by one of them; the object, when there is one, encodes the
    seed of the key; every seed a process carries, every seed a [CAS]
    stored and every seed passed to [PutObject] is the seed of the key;
    and [PutObject] is only called after a read that found nothing. *)
Record agreement (s : System) : Prop := mkAgreement {
  agree_kv : forall v, kvs (world s) = Some v ->
               exists seed, v = KVSeed seed /\ In (UID seed) (issued s);
  agree_object : forall o, object (world s) = Some o ->
               exists seed, o = Encoded seed /\ kvs (world s) = Some (KVSeed seed);
  agree_procs : forall i seed, carried (procs s i) = Some seed ->
               kvs (world s) = Some (KVSeed seed);
  agree_cas : forall i seed err, In (i, CallCAS (Some seed) err) (history s) ->
               kvs (world s) = Some (KVSeed seed);
  agree_puts : forall i seed err, In (i, CallPut seed err) (history s) ->
               kvs (world s) = Some (KVSeed seed);
  agree_guard : puts_guarded (history s);
  agree_ready : forall i seed, procs s i = AtWrite seed ->
               last_call_of i (history s) = Some (CallGet (inr ErrObjectNotFound));
  agree_local : forall i, pstate_ok (procs s i)
}.

(** Two leaders, with the candidates [seedA] and [seedB], race on a fresh
    cluster: both elect, both read, both write. *)
Definition seedA : ClusterSeed := {| UID := "a"; PrometheusVersion := "v"; CreatedAt := 10 |}.
Definition seedB : ClusterSeed := {| UID := "b"; PrometheusVersion := "v"; CreatedAt := 20 |}.

Definition env_of (seed : ClusterSeed) : Env :=
  {| env_uid := UID seed; env_version := PrometheusVersion seed;
     env_now := CreatedAt seed; env_fault := false; env_cancelled := false |}.

Definition race : list (nat * Env) :=
  [(0%nat, env_of seedA); (1%nat, env_of seedB);
   (0%nat, idle); (1%nat, idle); (0%nat, idle); (1%nat, idle)].

(** A cluster whose seed object exists while the key is absent. *)
Definition seedC : ClusterSeed := {| UID := "c"; PrometheusVersion := "v"; CreatedAt := 3 |}.

Definition object_only_world : World :=
  {| kvs := None; object := Some (Encoded seedC) |}.

(** A leader and a follower start together on a fresh cluster: the
    follower reads before the leader has written, and again after. *)
Definition leader_then_follower : list (nat * Env) :=
  [(1%nat, idle); (0%nat, env_of seedA); (1%nat, idle);
   (0%nat, idle); (0%nat, idle); (1%nat, idle)].

Definition one_leader (i : nat) : Config :=
  if Nat.eqb i 0 then leaderConfig else followerConfig.

(** ** Counting the calls of a run *)

Definition is_delete (c : call) : bool :=
  match c with CallDelete _ => true | _ => false end.

(** A read that failed with something else than "not found": what
    [fetchSeed] counts in [readingErr]. *)
Definition is_failed_read (c : call) : bool :=
  match c with
  | CallGet (inr err) => negb (IsObjectNotFoundErr err)
  | _ => false
  end.

(** A call that can change a store's value: [CAS] or [PutObject]. *)
Definition writes_store (c : call) : bool :=
  match c with
  | CallCAS _ _ => true
  | CallPut _ _ => true
  | _ => false
  end.

Definition count (f : call -> bool) (cs : list call) : Z :=
  Z.of_nat (List.length (filter f cs)).

(** The failed reads [fetchSeed] has counted at a program point, with a
    [DeleteObject] that is due standing for [attemptNumber + 1] of them. *)
Definition counted (p : pstate) : Z :=
  match p with
  | AtRead _ n => n
  | AtDelete _ _ => attemptNumber + 1
  | _ => 0
  end.

(** The program points of a follower and of a leader. *)
Definition follower_point (p : pstate) : bool :=
  match p with
  | AtRead FollowerCall _ => true
  | AtDelete FollowerCall _ => true
  | Resolved _ => true
  | _ => false
  end.

Definition leader_point (p : pstate) : bool :=
  match p with
  | AtElect => true
  | AtRead (LeaderCall _) _ => true
  | AtDelete (LeaderCall _) _ => true
  | AtWrite _ => true
  | Resolved (Some _) => true
  | _ => false
  end.

(** A step whose store call fails while the context is not done. *)
Definition faulty (e : Env) : bool := env_fault e && negb (env_cancelled e).

(** The ticker fires at [now] and [reportUsage] would run as [report]. *)
Definition ticks (l : list (Time * ReportRun)) : list LoopEvent :=
  map (fun '(now, report) => Tick now report) l.

(** What [reportUsage] returns when the context is done before its first
    attempt. *)
Definition nothingSent : ReportRun :=
  {| ru_err := None; ru_sent := 0; ru_waits := [] |}.

(** A process is at a program point of its role. *)
Definition role_point (c : Config) (p : pstate) : bool :=
  if Leader c then leader_point p else follower_point p.

(** Where the seeds of a cluster come from: every process is at a point
    of its role; only leaders have called [CAS] or [PutObject]; the object
    and every resolved seed were passed to a [PutObject] that succeeded. *)
Record provenance (roles : nat -> Config) (s : System) : Prop := mkProvenance {
  prov_roles : forall i, role_point (roles i) (procs s i) = true;
  prov_writers : forall i c, In (i, c) (history s) -> writes_store c = true ->
                 Leader (roles i) = true;
  prov_object : forall b, object (world s) = Some b ->
                 exists i seed, b = Encoded seed /\ In (i, CallPut seed None) (history s);
  prov_resolved : forall i r, procs s i = Resolved (Some r) ->
                 exists j, In (j, CallPut r None) (history s)
}.

(** What every process keeps true of its own calls, whatever the stores
    hold: a [PutObject] comes right after a read of the same process that
    found nothing, and a process about to write has just made such a read. *)
Record guarded (s : System) : Prop := mkGuarded {
  guard_puts : puts_guarded (history s);
  guard_ready : forall i seed, procs s i = AtWrite seed ->
                last_call_of i (history s) = Some (CallGet (inr ErrObjectNotFound));
  guard_local : forall i, pstate_ok (procs s i)
}.

(** * Properties *)

(** ** The election callback and [CAS] *)

Lemma uid_eqb_neq (a b : ClusterSeed) :
  negb (String.eqb (UID a) (UID b)) = true <-> UID a <> UID b.
Proof.
  rewrite negb_true_iff. apply String.eqb_neq.
Qed.

Lemma casCallback_keep (seed kvSeed : ClusterSeed) :
  UID kvSeed <> UID seed ->
  casCallback seed (Some (KVSeed kvSeed)) =
  {| cb_seed := kvSeed; cb_out := None; cb_retry := false; cb_err := None |}.
Proof.
  intros Hne. unfold casCallback.
  apply uid_eqb_neq in Hne. now rewrite Hne.
Qed.

Lemma casCallback_same (seed kvSeed : ClusterSeed) :
  UID kvSeed = UID seed ->
  casCallback seed (Some (KVSeed kvSeed)) =
  {| cb_seed := seed; cb_out := Some seed; cb_retry := true; cb_err := None |}.
Proof.
  intros Heq. unfold casCallback.
  rewrite Heq, String.eqb_refl. reflexivity.
Qed.

Lemma casCallback_no_error (seed : ClusterSeed) (in_ : option KVValue) :
  cb_err (casCallback seed in_) = None.
Proof.
  unfold casCallback.
  destruct in_ as [[kvSeed|]|]; try reflexivity.
  destruct (negb _); reflexivity.
Qed.

(** C10: in the callback of the election, a stored value that is not a
    seed, or is a seed with the UID of the candidate, makes the callback
    return the local candidate with the write requested, and [CAS] then
    replaces the stored value by the candidate; the stored value is kept
    (nil returned, the local seed replaced by the stored one) exactly when
    it is a seed whose UID differs from the candidate's. *)
Theorem casCallback_overwrites_unless_foreign_uid (seed : ClusterSeed) :
  casCallback seed (Some KVForeign) =
    {| cb_seed := seed; cb_out := Some seed; cb_retry := true; cb_err := None |}
  /\ CAS false (Some KVForeign) (casCallback seed) = (Some (KVSeed seed), None)
  /\ (forall kvSeed, UID kvSeed = UID seed ->
        casCallback seed (Some (KVSeed kvSeed)) =
          {| cb_seed := seed; cb_out := Some seed; cb_retry := true; cb_err := None |}
        /\ CAS false (Some (KVSeed kvSeed)) (casCallback seed) = (Some (KVSeed seed), None))
  /\ (forall kvSeed, UID kvSeed <> UID seed ->
        casCallback seed (Some (KVSeed kvSeed)) =
          {| cb_seed := kvSeed; cb_out := None; cb_retry := false; cb_err := None |}
        /\ CAS false (Some (KVSeed kvSeed)) (casCallback seed) = (Some (KVSeed kvSeed), None))
  /\ (forall in_, cb_out (casCallback seed in_) = None <->
        exists kvSeed, in_ = Some (KVSeed kvSeed) /\ UID kvSeed <> UID seed).
Proof.
  split; [reflexivity|]. split; [reflexivity|].
  split.
  { intros kvSeed Heq. unfold CAS. rewrite (casCallback_same _ _ Heq). now split. }
  split.
  { intros kvSeed Hne. unfold CAS. rewrite (casCallback_keep _ _ Hne). now split. }
  intros in_. split.
  - destruct in_ as [[kvSeed|]|]; simpl; try discriminate.
    destruct (negb (String.eqb (UID kvSeed) (UID seed))) eqn:E; simpl; try discriminate.
    intros _. exists kvSeed. split; [reflexivity|]. now apply uid_eqb_neq.
  - intros [kvSeed [-> Hne]]. now rewrite (casCallback_keep _ _ Hne).
Qed.

(** C8: a second election with the same candidate gives what the first
    gave.  Whatever the key held before, when the store is available the
    first call returns no error, and the second call, made on the value the
    first left, returns the same seed and the same outcome and leaves the
    stored value as it is; after an election that was won, the stored value
    is the candidate itself and both calls return it as elected. *)
Theorem electOrAdopt_idempotent (current : option KVValue) (candidate : ClusterSeed) :
  let first := electOrAdopt false current candidate in
  (exists seed elected, snd first = inr (seed, elected))
  /\ electOrAdopt false (fst first) candidate = first
  /\ (forall seed, snd first = inr (seed, true) ->
        seed = candidate
        /\ fst first = Some (KVSeed candidate)
        /\ electOrAdopt false (Some (KVSeed candidate)) candidate
           = (Some (KVSeed candidate), inr (candidate, true))).
Proof.
  assert (Hinv : forall a b : ClusterSeed, inr (A := error) (a, true) = inr (b, true) -> b = a)
    by (intros a b H; now inversion H).
  unfold electOrAdopt, CAS.
  destruct current as [[kvSeed|]|]; simpl.
  - destruct (String.eqb (UID kvSeed) (UID candidate)) eqn:E; simpl.
    + rewrite String.eqb_refl. simpl.
      split; [eauto|]. split; [reflexivity|].
      intros s H. apply Hinv in H. subst s. auto.
    + rewrite E. simpl.
      split; [eauto|]. split; [reflexivity|].
      intros s H. discriminate H.
  - rewrite String.eqb_refl. simpl.
    split; [eauto|]. split; [reflexivity|].
    intros s H. apply Hinv in H. subst s. auto.
  - rewrite String.eqb_refl. simpl.
    split; [eauto|]. split; [reflexivity|].
    intros s H. apply Hinv in H. subst s. auto.
Qed.

(** ** A leader that finds the key taken *)

Lemma quiet_fault (e : Env) : quiet e = true -> env_fault e = false.
Proof.
  unfold quiet. intros H. apply andb_true_iff in H. destruct H as [H _].
  now apply negb_true_iff in H.
Qed.

Lemma quiet_cancelled (e : Env) : quiet e = true -> env_cancelled e = false.
Proof.
  unfold quiet. intros H. apply andb_true_iff in H. destruct H as [_ H].
  now apply negb_true_iff in H.
Qed.

Lemma step_elect_adopts (w : World) (stored : ClusterSeed) (e : Env) :
  kvs w = Some (KVSeed stored) ->
  UID stored <> env_uid e ->
  env_fault e = false ->
  step w AtElect e = (w, AtRead (LeaderCall stored) 0, [CallCAS None None]).
Proof.
  intros Hkv Hne Hf. unfold step, electOrAdopt, CAS.
  rewrite Hf, Hkv.
  rewrite casCallback_keep by exact Hne. simpl.
  destruct w as [k o]. simpl in Hkv. now subst k.
Qed.

(** The object store holds a seed with another UID than the key: the
    leader resolves to the seed of the object. *)
Lemma leader_resolves_to_object_seed :
  ~ leader_resolves_to_stored_uid.
Proof.
  intros H.
  pose (abc := {| UID := "abc"; PrometheusVersion := "v"; CreatedAt := 5 |}).
  pose (def := {| UID := "def"; PrometheusVersion := "v"; CreatedAt := 7 |}).
  pose (e := {| env_uid := "xyz"; env_version := "v"; env_now := 9;
                env_fault := false; env_cancelled := false |}).
  specialize (H {| kvs := Some (KVSeed abc); object := Some (Encoded def) |}
                abc e [idle]
                {| kvs := Some (KVSeed abc); object := Some (Encoded def) |}
                def [CallCAS None None; CallGet (inl def)]
                eq_refl).
  simpl in H.
  assert (Hne : "abc"%string <> "xyz"%string) by discriminate.
  specialize (H Hne eq_refl eq_refl). discriminate H.
Qed.

(** C5 (as amended): a leader whose election finds under the key a seed
    with another UID keeps it: the key is not written and the candidate is
    replaced by the stored seed.  When no object exists the leader then
    writes the stored seed and resolves to it; when the object holds a
    seed, the leader resolves to that seed, which is the stored one only
    if the object says so, and the object is not written. *)
Theorem leader_adopts_stored_seed (w : World) (stored : ClusterSeed) (e1 e2 e3 : Env) :
  kvs w = Some (KVSeed stored) ->
  UID stored <> env_uid e1 ->
  quiet e1 = true -> quiet e2 = true -> quiet e3 = true ->
  step w AtElect e1 = (w, AtRead (LeaderCall stored) 0, [CallCAS None None])
  /\ match object w with
     | None =>
         initLeader w [e1; e2; e3] =
           ({| kvs := kvs w; object := Some (Encoded stored) |},
            Resolved (Some stored),
            [CallCAS None None; CallGet (inr ErrObjectNotFound); CallPut stored None])
     | Some (Encoded b) =>
         initLeader w [e1; e2; e3] =
           (w, Resolved (Some b), [CallCAS None None; CallGet (inl b)])
     | Some Malformed =>
         initLeader w [e1; e2; e3] =
           (w, AtRead (LeaderCall stored) 2,
            [CallCAS None None; CallGet (inr ErrDecode); CallGet (inr ErrDecode)])
     end.
Proof.
  intros Hkv Hne Q1 Q2 Q3.
  pose proof (step_elect_adopts w stored e1 Hkv Hne (quiet_fault _ Q1)) as Hs.
  split; [exact Hs|].
  unfold initLeader, run. rewrite Hs.
  unfold step, readSeedFile, writeSeedFile.
  rewrite (quiet_fault _ Q2), (quiet_cancelled _ Q2),
          (quiet_fault _ Q3), (quiet_cancelled _ Q3).
  destruct (object w) as [[b|]|] eqn:Ho; simpl; rewrite ?Ho; reflexivity.
Qed.

Lemma leader_adopts_stored_seed_witness :
  let abc := {| UID := "abc"; PrometheusVersion := "v"; CreatedAt := 5 |} in
  let w := {| kvs := Some (KVSeed abc); object := Some (Encoded abc) |} in
  let e := {| env_uid := "xyz"; env_version := "v"; env_now := 9;
              env_fault := false; env_cancelled := false |} in
  initLeader w [e; idle; idle] =
    (w, Resolved (Some abc), [CallCAS None None; CallGet (inl abc)]).
Proof.
  intros abc w e.
  assert (Hne : UID abc <> env_uid e) by discriminate.
  exact (proj2 (leader_adopts_stored_seed w abc e idle idle eq_refl Hne
                  eq_refl eq_refl eq_refl)).
Defined.

(** ** Reading a seed that does not decode *)

Lemma run_app (es1 es2 : list Env) (w : World) (p : pstate) :
  run w p (es1 ++ es2) =
  let '(w1, p1, c1) := run w p es1 in
  let '(w2, p2, c2) := run w1 p1 es2 in
  (w2, p2, c1 ++ c2).
Proof.
  revert w p. induction es1 as [|e es1 IH]; intros w p; simpl.
  - destruct (run w p es2) as [[w2 p2] c2]. reflexivity.
  - destruct (step w p e) as [[w1 p1] c1].
    rewrite IH.
    destruct (run w1 p1 es1) as [[w2 p2] c2].
    destruct (run w2 p2 es2) as [[w3 p3] c3].
    now rewrite app_assoc.
Qed.

(** One quiet read of a malformed object below the threshold: the count
    goes up by one and [fetchSeed] goes round its loop. *)
Lemma step_read_malformed (k : caller) (kv : option KVValue) (n : Z) (e : Env) :
  quiet e = true ->
  n + 1 <= attemptNumber ->
  step {| kvs := kv; object := Some Malformed |} (AtRead k n) e =
    ({| kvs := kv; object := Some Malformed |}, AtRead k (n + 1), [CallGet (inr ErrDecode)]).
Proof.
  intros Q Hn. unfold step, readSeedFile.
  rewrite (quiet_fault _ Q), (quiet_cancelled _ Q). simpl.
  destruct (attemptNumber <? n + 1) eqn:E.
  - apply Z.ltb_lt in E. lia.
  - unfold afterReadError, continueFn. destruct k; reflexivity.
Qed.

Lemma IsObjectNotFoundErr_true (err : error) :
  IsObjectNotFoundErr err = true -> err = ErrObjectNotFound.
Proof. destruct err; simpl; congruence. Qed.

(** Where [fetchSeed] goes after a failed read, given what it keeps true. *)
Lemma afterReadError_cases (k : caller) (n : Z) (err : error) :
  (afterReadError k n err = AtRead k n)
  \/ (exists seed, k = LeaderCall seed /\ err = ErrObjectNotFound
                   /\ afterReadError k n err = AtWrite seed).
Proof.
  unfold afterReadError, continueFn, fetchReturn.
  destruct k as [seed|]; [|now left].
  destruct (IsObjectNotFoundErr err) eqn:E; simpl; [|now left].
  right. exists seed. apply IsObjectNotFoundErr_true in E. auto.
Qed.

Lemma readSeedFile_found (fault : bool) (w : World) (seed : ClusterSeed) :
  readSeedFile fault w = inl seed -> object w = Some (Encoded seed).
Proof.
  unfold readSeedFile. destruct fault; [discriminate|].
  destruct (object w) as [[b|]|]; try discriminate.
  intros H. now inversion H.
Qed.

Lemma fetchReturn_found (k : caller) (seed : ClusterSeed) :
  fetchReturn k (inl seed) = Resolved (Some seed).
Proof. destruct k; reflexivity. Qed.

Lemma fetchReturn_context (k : caller) :
  fetchReturn k (inr ErrContext) = AtElect \/ fetchReturn k (inr ErrContext) = Resolved None.
Proof. destruct k; simpl; auto. Qed.

(** Without a cancellation no step ends the resolution without a seed. *)
Lemma step_keeps_trying (w : World) (p : pstate) (e : Env) :
  env_cancelled e = false ->
  p <> Resolved None ->
  snd (fst (step w p e)) <> Resolved None.
Proof.
  intros Hc Hp.
  assert (Hafter : forall k n err, afterReadError k n err <> Resolved None).
  { intros k n err.
    destruct (afterReadError_cases k n err) as [R|[s [_ [_ R]]]]; rewrite R; discriminate. }
  destruct p as [|k n|k err|seed|cl]; simpl.
  - destruct (electOrAdopt _ _ _) as [kv' [err|[seed' elected]]]; discriminate.
  - rewrite Hc.
    destruct (readSeedFile (env_fault e) w) as [seed|err]; simpl.
    + rewrite fetchReturn_found. discriminate.
    + destruct (attemptNumber <? _); simpl; [discriminate|apply Hafter].
  - destruct (DeleteObject (env_fault e) w) as [w' derr]. simpl. apply Hafter.
  - destruct (writeSeedFile (env_fault e) w seed) as [w' [err|]]; discriminate.
  - exact Hp.
Qed.

Lemma run_keeps_trying (n : nat) (w : World) (p : pstate) :
  p <> Resolved None ->
  snd (fst (run w p (repeat idle n))) <> Resolved None.
Proof.
  revert w p. induction n as [|n IH]; intros w p Hp; simpl.
  - exact Hp.
  - pose proof (step_keeps_trying w p idle eq_refl Hp) as Hs.
    destruct (step w p idle) as [[w1 p1] c1]. simpl in Hs.
    specialize (IH w1 p1 Hs).
    destruct (run w1 p1 (repeat idle n)) as [[w2 p2] c2]. exact IH.
Qed.

(** C4: on an object that does not decode, four reads in a row issue no
    [DeleteObject] at all and leave the count at 4; it is the fifth failed
    read that is followed by the one [DeleteObject], after which the count
    is 0 again and [fetchSeed] is back at the head of its loop, for the
    leader and for the follower; and however long this goes on without a
    cancellation, the resolution does not end without a seed. *)
Theorem fetchSeed_deletes_after_fifth_failed_read (k : caller) (kv : option KVValue) :
  let w := {| kvs := kv; object := Some Malformed |} in
  fetchSeed k w (repeat idle 4)
    = (w, AtRead k 4, repeat (CallGet (inr ErrDecode)) 4)
  /\ fetchSeed k w (repeat idle 5)
    = (w, AtDelete k ErrDecode, repeat (CallGet (inr ErrDecode)) 5)
  /\ fetchSeed k w (repeat idle 6)
    = ({| kvs := kv; object := None |}, AtRead k 0,
       repeat (CallGet (inr ErrDecode)) 5 ++ [CallDelete None])
  /\ forall n, snd (fst (fetchSeed k w (repeat idle n))) <> Resolved None.
Proof.
  intros w.
  split; [destruct k; reflexivity|].
  split; [destruct k; reflexivity|].
  split; [destruct k; reflexivity|].
  intros n. apply run_keeps_trying. discriminate.
Qed.

(** ** A context that is done *)

Lemma step_cancelled_spins (w : World) (p : pstate) (e : Env) :
  spinning p = true ->
  spinning (snd (fst (step w p (cancelled e)))) = true.
Proof.
  destruct p as [|[s|] n| | |]; simpl; try discriminate; intros _.
  - unfold electOrAdopt, CAS. simpl.
    destruct (env_fault e); simpl; [reflexivity|].
    rewrite casCallback_no_error.
    destruct (cb_out _); reflexivity.
  - reflexivity.
Qed.

Lemma run_cancelled_spins (es : list Env) (w : World) (p : pstate) :
  spinning p = true ->
  spinning (snd (fst (run w p (map cancelled es)))) = true.
Proof.
  revert w p. induction es as [|e es IH]; intros w p Hp; simpl.
  - exact Hp.
  - pose proof (step_cancelled_spins w p e Hp) as Hs.
    destruct (step w p (cancelled e)) as [[w1 p1] c1]. simpl in Hs.
    specialize (IH w1 p1 Hs).
    destruct (run w1 p1 (map cancelled es)) as [[w2 p2] c2]. exact IH.
Qed.

(** C3: with the context done, a follower's [init] returns at once with
    no cluster seed, and [running] goes on to read [CreatedAt] through the
    nil pointer; a leader's [init] does not return at all, however many
    steps it is given. *)
Theorem running_dereferences_nil_cluster_after_cancel
    (interval : Duration) (w : World) (e : Env) (es : list Env)
    (now : Time) (evs : list LoopEvent) :
  let follower := {| conf := followerConfig; cluster := None; lastReport := zeroTime |} in
  let leader := {| conf := leaderConfig; cluster := None; lastReport := zeroTime |} in
  init follower w [cancelled e] = Some (w, follower)
  /\ running interval follower w [cancelled e] now evs = Some Panicked
  /\ init leader w (map cancelled es) = None.
Proof.
  intros follower leader.
  split; [reflexivity|]. split; [reflexivity|].
  unfold init. change (init_start (conf leader)) with AtElect.
  pose proof (run_cancelled_spins es w AtElect eq_refl) as H.
  destruct (run w AtElect (map cancelled es)) as [[w' p'] cs]. simpl in H.
  destruct p' as [|k n|k err|s|cl]; simpl in H; try reflexivity.
  discriminate H.
Qed.

(** ** The schedule of the loop *)

Lemma Sub_lt_iff (t u : Time) (d : Duration) :
  minDuration < d <= maxDuration ->
  (Sub t u <? d) = true <-> t - u < d.
Proof.
  unfold Sub, minDuration, maxDuration, minInt64, maxInt64. intros Hd.
  rewrite Z.ltb_lt.
  destruct (t - u <? - 2 ^ 63) eqn:E1.
  - apply Z.ltb_lt in E1. lia.
  - apply Z.ltb_ge in E1.
    destruct (2 ^ 63 - 1 <? t - u) eqn:E2.
    + apply Z.ltb_lt in E2. lia.
    + apply Z.ltb_ge in E2. lia.
Qed.

Lemma due_iff (interval : Duration) (st : RunState) (now : Time) :
  due interval st now = true <->
  next st = now \/ interval <= Sub now (rs_lastReport st).
Proof.
  unfold due, notDue, Equal.
  rewrite negb_true_iff, andb_false_iff, negb_false_iff, Z.eqb_eq, Z.ltb_ge.
  reflexivity.
Qed.

(** With [lastReport] one interval behind [next], a tick is due from
    [next] on and not before. *)
Lemma due_from_next (interval : Duration) (st : RunState) (t : Time) :
  0 < interval <= maxDuration ->
  rs_lastReport st = Add (next st) (- interval) ->
  due interval st t = true <-> next st <= t.
Proof.
  intros Hi Hl. unfold due, notDue, Equal.
  rewrite negb_true_iff, andb_false_iff, negb_false_iff, Z.eqb_eq.
  assert (Hr : minDuration < interval <= maxDuration)
    by (unfold minDuration, minInt64; lia).
  pose proof (Sub_lt_iff t (rs_lastReport st) interval Hr) as HS.
  rewrite Hl in *. unfold Add in *.
  destruct (Sub t (next st + - interval) <? interval) eqn:E.
  - assert (t - (next st + - interval) < interval) by now apply HS.
    split; [intros [H1|H1]; [lia|discriminate]|intros; left; lia].
  - split; [|auto]. intros _.
    assert (~ t - (next st + - interval) < interval)
      by (intros H; apply HS in H; discriminate).
    lia.
Qed.

Lemma scheduled_one_interval_behind (interval : Duration) (st : RunState) :
  scheduled interval st ->
  rs_lastReport st = Add (next st) (- interval).
Proof.
  induction 1 as [rep now st Hz Hs | st now report Hsch IH].
  - unfold running_start in Hs.
    destruct (cluster rep) as [cl|]; [|discriminate].
    rewrite Hz in Hs. inversion Hs. reflexivity.
  - unfold tick.
    destruct (notDue interval st now); [exact IH|].
    destruct (ru_err report); [exact IH|].
    simpl. unfold Add. lia.
Qed.

(** What [running] computes before its loop. *)
Lemma running_start_seeds_lastReport_aux
    (interval : Duration) (rep : Reporter) (cl : ClusterSeed) (now : Time) :
  0 < interval <= maxDuration ->
  cluster rep = Some cl ->
  IsZero (lastReport rep) = true ->
  exists st,
    running_start interval rep now = Returned st
    /\ next st = nextReport interval (CreatedAt cl) now
    /\ rs_lastReport st = Add (next st) (- interval)
    /\ forall t, due interval st t = true <-> next st <= t.
Proof.
  intros Hi Hc Hz. unfold running_start. rewrite Hc, Hz.
  eexists. split; [reflexivity|]. simpl.
  split; [reflexivity|]. split; [reflexivity|].
  intros t. apply due_from_next; [exact Hi|reflexivity].
Qed.

(** C9: on start, with a seed resolved and no report sent yet, [next] is
    [nextReport interval cluster.CreatedAt now] and [lastReport] is set to
    [next - interval]; the due check then fires on the first tick at or
    after [next] and on none before it. *)
Theorem running_start_seeds_lastReport
    (interval : Duration) (rep : Reporter) (cl : ClusterSeed) (now : Time) :
  0 < interval <= maxDuration ->
  cluster rep = Some cl ->
  IsZero (lastReport rep) = true ->
  exists st,
    running_start interval rep now = Returned st
    /\ next st = nextReport interval (CreatedAt cl) now
    /\ rs_lastReport st = Add (next st) (- interval)
    /\ due interval st (next st) = true
    /\ forall t, due interval st t = true <-> next st <= t.
Proof.
  intros Hi Hc Hz.
  destruct (running_start_seeds_lastReport_aux interval rep cl now Hi Hc Hz)
    as [st [Hs [Hn [Hl Hd]]]].
  exists st. repeat split; auto; try (now apply Hd).
Qed.

Lemma running_start_seeds_lastReport_witness :
  let cl := {| UID := "abc"; PrometheusVersion := "v"; CreatedAt := 1000 |} in
  let rep := {| conf := leaderConfig; cluster := Some cl; lastReport := zeroTime |} in
  exists st,
    running_start reportInterval rep (1000 + 90 * Minute) = Returned st
    /\ next st = nextReport reportInterval (CreatedAt cl) (1000 + 90 * Minute)
    /\ rs_lastReport st = Add (next st) (- reportInterval)
    /\ due reportInterval st (next st) = true
    /\ forall t, due reportInterval st t = true <-> next st <= t.
Proof.
  intros cl rep.
  apply (running_start_seeds_lastReport reportInterval rep cl (1000 + 90 * Minute)).
  - unfold reportInterval, maxDuration, maxInt64, Hour, Minute, Second. lia.
  - reflexivity.
  - reflexivity.
Defined.

(** C6: a tick is due exactly when [now] equals [next] or a full
    interval has passed since [lastReport].  A tick that is not due
    changes nothing; a due tick whose [reportUsage] returns nil sets
    [lastReport] to [next] and moves [next] on by one interval; a due tick
    whose [reportUsage] returns an error leaves both as they were, and
    every later tick is then due again for the same [next]. *)
Theorem tick_advances_only_on_success
    (interval : Duration) (st : RunState) (now : Time) (report : ReportRun) :
  0 < interval <= maxDuration ->
  scheduled interval st ->
  (due interval st now = true <->
     next st = now \/ interval <= Sub now (rs_lastReport st))
  /\ (due interval st now = false -> tick interval st now report = (st, TickIdle))
  /\ (due interval st now = true -> ru_err report = None ->
        tick interval st now report =
          ({| next := Add (next st) interval; rs_lastReport := next st |}, TickReported))
  /\ (forall err, due interval st now = true -> ru_err report = Some err ->
        tick interval st now report = (st, TickFailed err)
        /\ forall now' report', now <= now' ->
             due interval st now' = true
             /\ snd (tick interval st now' report') <> TickIdle
             /\ (ru_err report' = None ->
                   rs_lastReport (fst (tick interval st now' report')) = next st)).
Proof.
  intros Hi Hsch.
  pose proof (scheduled_one_interval_behind interval st Hsch) as Hinv.
  split; [apply due_iff|].
  unfold due, tick.
  split; [|split].
  - intros H. apply negb_false_iff in H. now rewrite H.
  - intros H Hr. apply negb_true_iff in H. now rewrite H, Hr.
  - intros err H Hr. pose proof H as Hdue.
    apply negb_true_iff in H. rewrite H, Hr. split; [reflexivity|].
    intros now' report' Hle.
    assert (Hd' : due interval st now' = true).
    { apply (due_from_next interval st now' Hi Hinv).
      apply (due_from_next interval st now Hi Hinv) in Hdue. lia. }
    split; [exact Hd'|].
    unfold due in Hd'. apply negb_true_iff in Hd'. rewrite Hd'.
    destruct (ru_err report'); simpl; split; try discriminate; auto.
Qed.

Lemma tick_advances_only_on_success_witness :
  let cl := {| UID := "abc"; PrometheusVersion := "v"; CreatedAt := 1000 |} in
  let st := {| next := 1000 + 2 * Hour; rs_lastReport := 1000 + Hour |} in
  let failed := {| ru_err := Some (ErrMulti [ErrSend 0]); ru_sent := 1; ru_waits := [] |} in
  tick reportInterval st (1000 + 2 * Hour + Minute) failed
    = (st, TickFailed (ErrMulti [ErrSend 0])).
Proof.
  intros cl st failed.
  assert (Hi : 0 < reportInterval <= maxDuration)
    by (unfold reportInterval, maxDuration, maxInt64, Hour, Minute, Second; lia).
  assert (Hs : scheduled reportInterval st).
  { apply (scheduled_start reportInterval
             {| conf := leaderConfig; cluster := Some cl; lastReport := zeroTime |}
             (1000 + 90 * Minute)); reflexivity. }
  destruct (tick_advances_only_on_success reportInterval st
              (1000 + 2 * Hour + Minute) failed Hi Hs) as [_ [_ [_ H]]].
  exact (proj1 (H (ErrMulti [ErrSend 0]) eq_refl eq_refl)).
Defined.

(** ** Sending a report *)

Ltac ask_surroundings done send :=
  repeat (simpl;
          match goal with
          | |- context [done ?k] =>
              lazymatch goal with
              | H : done k = _ |- _ => rewrite H
              | _ => destruct (done k) eqn:?
              end
          | |- context [send ?k] =>
              lazymatch goal with
              | H : send k = _ |- _ => rewrite H
              | _ => destruct (send k) eqn:?
              end
          end).

(** C7: [reportUsage] returns after at most 5 calls of [sendReport],
    waiting between 1s and 30s after each failed one.  When it returns an
    error, every call failed and the error is the aggregate of all their
    errors in order; when any call it made succeeded it returns nil; when
    the context is never done and every call fails it makes 5 calls.  A
    tick whose [reportUsage] returned an error leaves the loop of
    [running] going, with its state as it was. *)
Theorem reportUsage_bounded_retry (send : Z -> option error) (done : Z -> bool)
    (extra : nat) :
  exists r,
    reportUsage (6 + extra)%nat send done = Some r
    /\ (ru_sent r <= 5)%nat
    /\ Forall (fun d => Second <= d <= 30 * Second) (ru_waits r)
    /\ (forall err, ru_err r = Some err ->
          err = ErrMulti (failures send (ru_sent r))
          /\ List.length (failures send (ru_sent r)) = ru_sent r)
    /\ (forall k, (k < ru_sent r)%nat -> send (Z.of_nat k) = None -> ru_err r = None)
    /\ ((forall k, done k = false) -> (forall k, send k <> None) ->
          ru_sent r = 5%nat /\ ru_err r = Some (ErrMulti (failures send 5)))
    /\ (forall interval st now,
          running_loop interval st [Tick now r] = (fst (tick interval st now r), None)
          /\ (ru_err r <> None -> fst (tick interval st now r) = st)).
Proof.
  unfold reportUsage, reportUsage_loop, backoff_New, Ongoing, NumRetries, Wait, delay,
    reportBackoff.
  ask_surroundings done send.
  all: eexists; split; [reflexivity|]; simpl.
  all: split; [lia|].
  all: split; [once (repeat constructor); unfold Second; simpl; lia|].
  all: split;
    [intros err Herr;
     first [discriminate Herr
           |unfold failures; simpl;
            repeat match goal with H : _ = Some _ |- _ => rewrite H; clear H end;
            simpl; split; [now inversion Herr | reflexivity]]|].
  all: split;
    [intros k Hk Hs;
     first [reflexivity
           |exfalso;
            repeat (destruct k as [|k]; [simpl in Hs; congruence|]); lia]|].
  all: split;
    [intros Hd Hsn;
     first [match goal with H : _ = true |- _ => rewrite Hd in H; discriminate H end
           |match goal with H : _ = None |- _ => exfalso; exact (Hsn _ H) end
           |split; [reflexivity|];
            unfold failures; simpl;
            repeat match goal with H : _ = Some _ |- _ => rewrite H; clear H end;
            reflexivity]|].
  all: intros interval st now; split; [reflexivity|];
    unfold tick; destruct (notDue interval st now); simpl; intros H;
    first [reflexivity | now exfalso].
Qed.

(** ** Agreement on one seed *)

Lemma update_same (f : nat -> pstate) (i : nat) (p : pstate) : update f i p i = p.
Proof. unfold update. now rewrite Nat.eqb_refl. Qed.

Lemma update_other (f : nat -> pstate) (i j : nat) (p : pstate) :
  j <> i -> update f i p j = f j.
Proof.
  intros H. unfold update. apply Nat.eqb_neq in H. now rewrite H.
Qed.

Lemma mem_false (u : string) (l : list string) : mem u l = false -> ~ In u l.
Proof.
  unfold mem. intros H Hin.
  assert (existsb (String.eqb u) l = true).
  { apply existsb_exists. exists u. split; [exact Hin|apply String.eqb_refl]. }
  congruence.
Qed.

Lemma last_call_of_other (i j : nat) (c : call) (h : list (nat * call)) :
  i <> j -> last_call_of i ((j, c) :: h) = last_call_of i h.
Proof.
  intros H. simpl. apply Nat.eqb_neq in H. now rewrite H.
Qed.

Lemma last_call_of_same (i : nat) (c : call) (h : list (nat * call)) :
  last_call_of i ((i, c) :: h) = Some c.
Proof. simpl. now rewrite Nat.eqb_refl. Qed.

Lemma step_pstate_ok (w : World) (p : pstate) (e : Env) :
  pstate_ok p -> pstate_ok (snd (fst (step w p e))).
Proof.
  unfold attemptNumber.
  destruct p as [|k n|k err|seed|cl]; simpl; intros Hp.
  - destruct (electOrAdopt _ _ _) as [kv' [err|[seed' elected]]]; simpl;
      unfold attemptNumber; auto; lia.
  - destruct (env_cancelled e); simpl.
    + destruct k; simpl; exact I.
    + destruct (readSeedFile (env_fault e) w) as [seed|err]; simpl.
      * destruct k; exact I.
      * destruct (IsObjectNotFoundErr err) eqn:E; simpl.
        -- destruct (attemptNumber <? n) eqn:E2; simpl.
           ++ apply Z.ltb_lt in E2. unfold attemptNumber in *. lia.
           ++ destruct (afterReadError_cases k n err) as [H|[s [_ [_ H]]]];
                rewrite H; simpl; auto.
        -- destruct (attemptNumber <? n + 1) eqn:E2; simpl; [exact E|].
           apply Z.ltb_ge in E2.
           destruct (afterReadError_cases k (n + 1) err) as [H|[s [_ [_ H]]]];
             rewrite H; simpl; auto. lia.
  - destruct (DeleteObject (env_fault e) w) as [w' derr]. simpl.
    destruct (afterReadError_cases k 0 err) as [H|[s [_ [_ H]]]];
      rewrite H; simpl; auto. unfold attemptNumber. lia.
  - destruct (writeSeedFile (env_fault e) w seed) as [w' [err|]]; exact I.
  - exact I.
Qed.

(** What has to be checked of one step for the agreement to go on. *)
Lemma agreement_after (s : System) (i : nat) (w' : World) (p' : pstate)
    (iss' : list string) (oc : option call) :
  agreement s ->
  incl (issued s) iss' ->
  (forall v, kvs w' = Some v -> exists seed, v = KVSeed seed /\ In (UID seed) iss') ->
  (forall o, object w' = Some o ->
     exists seed, o = Encoded seed /\ kvs w' = Some (KVSeed seed)) ->
  (forall seed, kvs (world s) = Some (KVSeed seed) -> kvs w' = Some (KVSeed seed)) ->
  (forall seed, carried p' = Some seed -> kvs w' = Some (KVSeed seed)) ->
  (forall seed err, oc = Some (CallCAS (Some seed) err) -> kvs w' = Some (KVSeed seed)) ->
  (forall seed err, oc = Some (CallPut seed err) ->
     kvs w' = Some (KVSeed seed)
     /\ last_call_of i (history s) = Some (CallGet (inr ErrObjectNotFound))) ->
  (forall seed, p' = AtWrite seed -> oc = Some (CallGet (inr ErrObjectNotFound))) ->
  pstate_ok p' ->
  agreement {| world := w';
               procs := update (procs s) i p';
               issued := iss';
               history := match oc with
                          | Some c => (i, c) :: history s
                          | None => history s
                          end |}.
Proof.
  intros A Hincl Hkv Hobj Hstable Hcarry Hcas Hput Hready Hok.
  constructor; simpl.
  - exact Hkv.
  - exact Hobj.
  - intros j sd Hc. destruct (Nat.eq_dec j i) as [->|Hne].
    + rewrite update_same in Hc. now apply Hcarry.
    + rewrite update_other in Hc by exact Hne.
      apply Hstable. now apply (agree_procs s A j).
  - intros j sd err Hin.
    assert (Hold : In (j, CallCAS (Some sd) err) (history s) -> kvs w' = Some (KVSeed sd))
      by (intros Ho; apply Hstable; now apply (agree_cas s A j sd err)).
    destruct oc as [c|]; [|now apply Hold].
    destruct Hin as [Heq|Hin]; [|now apply Hold].
    inversion Heq; subst. now apply (Hcas sd err).
  - intros j sd err Hin.
    assert (Hold : In (j, CallPut sd err) (history s) -> kvs w' = Some (KVSeed sd))
      by (intros Ho; apply Hstable; now apply (agree_puts s A j sd err)).
    destruct oc as [c|]; [|now apply Hold].
    destruct Hin as [Heq|Hin]; [|now apply Hold].
    inversion Heq; subst. now apply (Hput sd err).
  - destruct oc as [c|]; [|apply (agree_guard s A)].
    split; [|apply (agree_guard s A)].
    destruct c; try exact I. now apply (Hput seed err).
  - intros j sd Hj. destruct (Nat.eq_dec j i) as [->|Hne].
    + rewrite update_same in Hj. rewrite (Hready sd Hj). apply last_call_of_same.
    + rewrite update_other in Hj by exact Hne.
      destruct oc as [c|].
      * rewrite last_call_of_other by exact Hne. now apply (agree_ready s A j sd).
      * now apply (agree_ready s A j sd).
  - intros j. destruct (Nat.eq_dec j i) as [->|Hne].
    + rewrite update_same. exact Hok.
    + rewrite update_other by exact Hne. apply (agree_local s A).
Qed.

Lemma step_elect_wins (w : World) (e : Env) :
  kvs w = None ->
  env_fault e = false ->
  let seed := {| UID := env_uid e; PrometheusVersion := env_version e;
                 CreatedAt := env_now e |} in
  step w AtElect e =
    ({| kvs := Some (KVSeed seed); object := object w |},
     AtRead (LeaderCall seed) 0, [CallCAS (Some seed) None]).
Proof.
  intros Hkv Hf. unfold step, electOrAdopt, CAS. rewrite Hf, Hkv. reflexivity.
Qed.

Lemma step_elect_fault (w : World) (e : Env) :
  env_fault e = true ->
  step w AtElect e = (w, AtElect, [CallCAS None (Some ErrKV)]).
Proof.
  intros Hf. unfold step, electOrAdopt, CAS. rewrite Hf. reflexivity.
Qed.

Lemma sys_step_agreement (s s' : System) (i : nat) (e : Env) :
  agreement s -> sys_step s i e = Some s' -> agreement s'.
Proof.
  intros A H. unfold sys_step in H.
  pose proof (agree_local s A i) as Hloc.
  pose proof (step_pstate_ok (world s) (procs s i) e Hloc) as Hloc'.
  destruct (procs s i) as [|k n|k err|seed|cl] eqn:Hp.
  - (* the election *)
    cbn [is_AtElect andb] in H. destruct (mem (env_uid e) (issued s)) eqn:Hm; [discriminate|].
    apply mem_false in Hm.
    destruct (env_fault e) eqn:Hf.
    + rewrite (step_elect_fault _ _ Hf) in H.
      inversion H; subst s'; clear H.
      apply (agreement_after s i (world s) AtElect _ (Some (CallCAS None (Some ErrKV))));
        auto; try discriminate.
      * apply incl_tl, incl_refl.
      * intros v Hv. destruct (agree_kv s A v Hv) as [w [-> Hin]]. exists w. simpl. auto.
      * apply (agree_object s A).
    + destruct (kvs (world s)) as [v|] eqn:Hkv.
      * destruct (agree_kv s A v Hkv) as [w [-> Hin]].
        assert (Hne : UID w <> env_uid e) by (intros Heq; apply Hm; now rewrite <- Heq).
        rewrite (step_elect_adopts _ _ _ Hkv Hne Hf) in H.
        inversion H; subst s'; clear H.
        apply (agreement_after s i (world s) (AtRead (LeaderCall w) 0) _
                 (Some (CallCAS None None))); auto; try discriminate.
        -- apply incl_tl, incl_refl.
        -- intros v Hv. destruct (agree_kv s A v Hv) as [w0 [-> Hin0]].
           exists w0. simpl. auto.
        -- apply (agree_object s A).
        -- simpl. intros sd Hsd. inversion Hsd; subst. exact Hkv.
        -- simpl. unfold attemptNumber. lia.
      * rewrite (step_elect_wins _ _ Hkv Hf) in H.
        inversion H; subst s'; clear H.
        match goal with
        | |- agreement {| world := ?w1; procs := update _ _ ?p1; issued := _; history := _ |} =>
            apply (agreement_after s i w1 p1 _
                     (Some (CallCAS (Some {| UID := env_uid e;
                                             PrometheusVersion := env_version e;
                                             CreatedAt := env_now e |}) None)))
        end; auto; simpl; try discriminate.
        -- apply incl_tl, incl_refl.
        -- intros v Hv. inversion Hv; subst. eexists. split; [reflexivity|]. simpl. auto.
        -- intros o Ho. destruct (agree_object s A o Ho) as [sd [_ Hk]]. congruence.
        -- intros sd Hsd. congruence.
        -- intros sd Hsd. now inversion Hsd.
        -- intros sd err Heq. now inversion Heq.
        -- unfold attemptNumber. lia.
  - (* a read of [fetchSeed] *)
    cbn [is_AtElect andb step] in H, Hloc'.
    assert (Hk : forall sd, carried (AtRead k n) = Some sd ->
                            kvs (world s) = Some (KVSeed sd))
      by (intros sd Hsd; apply (agree_procs s A i); now rewrite Hp).
    destruct (env_cancelled e).
    + inversion H; subst s'; clear H. simpl.
      apply (agreement_after s i (world s) _ _ None); auto; try discriminate;
        try (destruct (fetchReturn_context k) as [R|R]; rewrite R;
             first [discriminate | exact I]).
      * apply incl_refl.
      * apply (agree_kv s A).
      * apply (agree_object s A).
    + destruct (readSeedFile (env_fault e) (world s)) as [sd|err] eqn:Hr.
      * inversion H; subst s'; clear H. simpl.
        rewrite fetchReturn_found.
        apply (agreement_after s i (world s) _ _ (Some (CallGet (inl sd))));
          auto; try discriminate.
        -- apply incl_refl.
        -- apply (agree_kv s A).
        -- apply (agree_object s A).
        -- simpl. intros sd' Hsd. inversion Hsd; subst sd'.
           apply readSeedFile_found in Hr.
           destruct (agree_object s A _ Hr) as [sd' [Heq Hkv]].
           inversion Heq; subst. exact Hkv.
        -- exact I.
      * remember (if negb (IsObjectNotFoundErr err) then n + 1 else n) as n' eqn:Hn'.
        destruct (attemptNumber <? n') eqn:Hlt.
        -- inversion H; subst s'; clear H. simpl. simpl in Hloc'.
           apply (agreement_after s i (world s) _ _ (Some (CallGet (inr err))));
             auto; try discriminate.
           ++ apply incl_refl.
           ++ apply (agree_kv s A).
           ++ apply (agree_object s A).
        -- inversion H; subst s'; clear H. simpl. simpl in Hloc'.
           destruct (afterReadError_cases k n' err) as [R|[sd [Hk' [He R]]]];
             rewrite R in *.
           ++ apply (agreement_after s i (world s) _ _ (Some (CallGet (inr err))));
                auto; try discriminate.
              ** apply incl_refl.
              ** apply (agree_kv s A).
              ** apply (agree_object s A).
           ++ subst k err.
              apply (agreement_after s i (world s) _ _
                       (Some (CallGet (inr ErrObjectNotFound)))); auto; try discriminate.
              ** apply incl_refl.
              ** apply (agree_kv s A).
              ** apply (agree_object s A).
  - (* the [DeleteObject] of [fetchSeed] *)
    cbn [is_AtElect andb step] in H.
    assert (Hk : forall sd, carried (AtDelete k err) = Some sd ->
                            kvs (world s) = Some (KVSeed sd))
      by (intros sd Hsd; apply (agree_procs s A i); now rewrite Hp).
    simpl in Hloc.
    assert (R : afterReadError k 0 err = AtRead k 0).
    { destruct (afterReadError_cases k 0 err) as [R|[sd [_ [He _]]]]; [exact R|].
      subst err. discriminate Hloc. }
    rewrite R in H.
    unfold DeleteObject in H.
    destruct (env_fault e); inversion H; subst s'; clear H; simpl.
    + apply (agreement_after s i (world s) _ _ (Some (CallDelete (Some ErrIO))));
        auto; try discriminate.
      * apply incl_refl.
      * apply (agree_kv s A).
      * apply (agree_object s A).
      * simpl. unfold attemptNumber. lia.
    + apply (agreement_after s i _ _ _ (Some (CallDelete None)));
        auto; try discriminate; simpl.
      * apply incl_refl.
      * apply (agree_kv s A).
      * unfold attemptNumber. lia.
  - (* the [writeSeedFile] of [initLeader] *)
    cbn [is_AtElect andb step] in H.
    assert (Hk : kvs (world s) = Some (KVSeed seed))
      by (apply (agree_procs s A i); now rewrite Hp).
    pose proof (agree_ready s A i seed Hp) as Hlast.
    unfold writeSeedFile in H.
    destruct (env_fault e); inversion H; subst s'; clear H; simpl.
    + apply (agreement_after s i (world s) _ _ (Some (CallPut seed (Some ErrIO))));
        auto; try discriminate.
      * apply incl_refl.
      * apply (agree_kv s A).
      * apply (agree_object s A).
      * intros sd err Heq. inversion Heq; subst. auto.
    + apply (agreement_after s i _ _ _ (Some (CallPut seed None)));
        auto; try discriminate; simpl.
      * apply incl_refl.
      * apply (agree_kv s A).
      * intros o Ho. inversion Ho; subst. eauto.
      * intros sd Hsd. inversion Hsd; subst. exact Hk.
      * intros sd err Heq. inversion Heq; subst. auto.
  - (* [init] has returned *)
    cbn [is_AtElect andb step] in H.
    inversion H; subst s'; clear H. simpl.
    apply (agreement_after s i (world s) _ _ None); auto; try discriminate.
    + apply incl_refl.
    + apply (agree_kv s A).
    + apply (agree_object s A).
    + intros sd Hsd. apply (agree_procs s A i). now rewrite Hp.
Qed.

Lemma agreement_init (roles : nat -> Config) :
  agreement (sys_init fresh_world roles).
Proof.
  constructor; simpl; try discriminate; try contradiction; auto.
  - intros i seed. unfold init_start. destruct (Leader (roles i)); discriminate.
  - intros i seed. unfold init_start. destruct (Leader (roles i)); discriminate.
  - intros i. unfold init_start.
    destruct (Leader (roles i)); simpl; unfold attemptNumber; auto; lia.
Qed.

Lemma sys_run_agreement (sched : list (nat * Env)) (s s' : System) :
  agreement s -> sys_run s sched = Some s' -> agreement s'.
Proof.
  revert s. induction sched as [|[i e] rest IH]; intros s A H; simpl in H.
  - inversion H. now subst.
  - destruct (sys_step s i e) as [s1|] eqn:E; [|discriminate].
    apply (IH s1); [|exact H].
    exact (sys_step_agreement s s1 i e A E).
Qed.

(** No UID is handed out twice. *)
Lemma sys_run_issued_NoDup (sched : list (nat * Env)) (s s' : System) :
  NoDup (issued s) -> sys_run s sched = Some s' -> NoDup (issued s').
Proof.
  revert s. induction sched as [|[i e] rest IH]; intros s N H; simpl in H.
  - inversion H. now subst.
  - destruct (sys_step s i e) as [s1|] eqn:E; [|discriminate].
    apply (IH s1); [|exact H].
    unfold sys_step in E.
    destruct (is_AtElect (procs s i)); simpl in E.
    + destruct (mem (env_uid e) (issued s)) eqn:Hm; [discriminate|].
      apply mem_false in Hm.
      destruct (step (world s) (procs s i) e) as [[w' p'] cs].
      inversion E; subst s1; simpl. now constructor.
    + destruct (step (world s) (procs s i) e) as [[w' p'] cs].
      inversion E; subst s1; simpl. exact N.
Qed.

(** Two leaders on a cluster whose object exists and whose key does not:
    both resolve to the seed of the object, which neither proposed. *)
Lemma race_on_existing_object_adopts_it :
  ~ race_persists_a_candidate.
Proof.
  intros H.
  remember (sys_run (sys_init object_only_world (fun _ => leaderConfig))
              [(0%nat, env_of seedA); (1%nat, env_of seedB);
               (0%nat, idle); (1%nat, idle)]) as r eqn:E.
  destruct r as [s|].
  - symmetry in E.
    pose proof (H object_only_world _ s seedC eq_refl E) as H1.
    vm_compute in E. inversion E; subst s; clear E.
    simpl in H1. specialize (H1 eq_refl).
    destruct H1 as [H1|[H1|[]]]; discriminate H1.
  - vm_compute in E. discriminate E.
Qed.

(** C1 (as amended): on a cluster that starts with neither the key nor
    the seed object, whatever the number of leaders and followers, the
    order of their steps, the failures of the stores and the cancellations:
    the object, when it exists, encodes the seed stored under the key,
    whose UID is that of one candidate; every process that has resolved a
    seed has resolved that one; every [CAS] that stored a seed and every
    [PutObject] carried the same seed; every [PutObject] comes right
    after a read by the same process that returned "not found"; and no
    two candidates share a UID. *)
Theorem one_seed_from_fresh_cluster
    (roles : nat -> Config) (sched : list (nat * Env)) (s : System) :
  sys_run (sys_init fresh_world roles) sched = Some s ->
  (forall b, object (world s) = Some b ->
     exists seed, b = Encoded seed /\ In (UID seed) (issued s)
                  /\ kvs (world s) = Some (KVSeed seed))
  /\ (forall i r, procs s i = Resolved (Some r) -> kvs (world s) = Some (KVSeed r))
  /\ (forall i j r r', procs s i = Resolved (Some r) ->
        procs s j = Resolved (Some r') -> r = r')
  /\ (forall i r b, procs s i = Resolved (Some r) ->
        object (world s) = Some b -> b = Encoded r)
  /\ (forall i j seed seed' err err',
        In (i, CallPut seed err) (history s) ->
        In (j, CallPut seed' err') (history s) -> seed = seed')
  /\ (forall i j seed seed' err err',
        In (i, CallCAS (Some seed) err) (history s) ->
        In (j, CallCAS (Some seed') err') (history s) -> seed = seed')
  /\ puts_guarded (history s)
  /\ NoDup (issued s).
Proof.
  intros H.
  pose proof (sys_run_agreement sched _ s (agreement_init roles) H) as A.
  pose proof (sys_run_issued_NoDup sched (sys_init fresh_world roles) s
                (NoDup_nil _) H) as N.
  assert (Hres : forall i r, procs s i = Resolved (Some r) ->
                             kvs (world s) = Some (KVSeed r)).
  { intros i r Hi. apply (agree_procs s A i). now rewrite Hi. }
  split.
  { intros b Hb. destruct (agree_object s A b Hb) as [seed [-> Hkv]].
    destruct (agree_kv s A _ Hkv) as [seed' [Heq Hin]].
    inversion Heq; subst seed'. eauto. }
  split; [exact Hres|].
  split.
  { intros i j r r' Hi Hj.
    pose proof (Hres i r Hi) as H1. pose proof (Hres j r' Hj) as H2. congruence. }
  split.
  { intros i r b Hi Hb. destruct (agree_object s A b Hb) as [seed [-> Hkv]].
    pose proof (Hres i r Hi) as H1. congruence. }
  split.
  { intros i j seed seed' err err' H1 H2.
    pose proof (agree_puts s A _ _ _ H1). pose proof (agree_puts s A _ _ _ H2).
    congruence. }
  split.
  { intros i j seed seed' err err' H1 H2.
    pose proof (agree_cas s A _ _ _ H1). pose proof (agree_cas s A _ _ _ H2).
    congruence. }
  split; [apply (agree_guard s A)|exact N].
Qed.

Lemma one_seed_from_fresh_cluster_witness :
  match sys_run (sys_init fresh_world (fun _ => leaderConfig)) race with
  | Some s =>
      procs s 0%nat = Resolved (Some seedA)
      /\ procs s 1%nat = Resolved (Some seedA)
      /\ object (world s) = Some (Encoded seedA)
      /\ (forall i j r r', procs s i = Resolved (Some r) ->
            procs s j = Resolved (Some r') -> r = r')
  | None => False
  end.
Proof.
  destruct (sys_run (sys_init fresh_world (fun _ => leaderConfig)) race) as [s|] eqn:E.
  - pose proof (one_seed_from_fresh_cluster (fun _ => leaderConfig) race s E) as T.
    destruct T as [_ [_ [T _]]].
    vm_compute in E. inversion E; subst s; clear E.
    repeat split; [reflexivity..|exact T].
  - vm_compute in E. discriminate E.
Defined.

(** The fresh cluster of section 8: the leader wins the election, finds
    no object and writes its seed; the follower, which found nothing
    before, then reads the same seed. *)
Lemma fresh_cluster_converges :
  match sys_run (sys_init fresh_world one_leader) leader_then_follower with
  | Some s =>
      world s = {| kvs := Some (KVSeed seedA); object := Some (Encoded seedA) |}
      /\ procs s 0%nat = Resolved (Some seedA)
      /\ procs s 1%nat = Resolved (Some seedA)
      /\ rev (history s) =
           [(1%nat, CallGet (inr ErrObjectNotFound));
            (0%nat, CallCAS (Some seedA) None);
            (1%nat, CallGet (inr ErrObjectNotFound));
            (0%nat, CallGet (inr ErrObjectNotFound));
            (0%nat, CallPut seedA None);
            (1%nat, CallGet (inl seedA))]
  | None => False
  end.
Proof.
  vm_compute. repeat split.
Qed.

(** ** The next report *)

Lemma Sub_in_range (t u : Time) :
  minDuration <= t - u <= maxDuration -> Sub t u = t - u.
Proof.
  intros H. unfold Sub.
  destruct (t - u <? minDuration) eqn:E1; [apply Z.ltb_lt in E1; lia|].
  destruct (maxDuration <? t - u) eqn:E2; [apply Z.ltb_lt in E2; lia|].
  reflexivity.
Qed.

(** [nextReport] only looks at how far [now] is from [createdAt]. *)
Lemma nextReport_shift (interval : Duration) (createdAt now : Time) :
  nextReport interval createdAt now =
  createdAt + nextReport interval 0 (now - createdAt).
Proof.
  unfold nextReport, Add, Sub.
  replace (now - createdAt - 0) with (now - createdAt) by lia.
  lia.
Qed.

(** The cadence of section 8: an hourly report, 90 minutes after the
    seed was created, is next due at two hours; on a boundary it is due at
    once. *)
Lemma nextReport_cadence (createdAt : Time) :
  nextReport Hour createdAt (createdAt + 90 * Minute) = createdAt + 2 * Hour
  /\ nextReport Hour createdAt createdAt = createdAt
  /\ nextReport Hour createdAt (createdAt + 1) = createdAt + Hour
  /\ nextReport Hour createdAt (createdAt + 3 * Hour) = createdAt + 3 * Hour.
Proof.
  repeat split; rewrite nextReport_shift.
  - replace (createdAt + 90 * Minute - createdAt) with (90 * Minute) by lia.
    assert (E : nextReport Hour 0 (90 * Minute) = 2 * Hour) by reflexivity.
    rewrite E. reflexivity.
  - replace (createdAt - createdAt) with 0 by lia.
    assert (E : nextReport Hour 0 0 = 0) by reflexivity.
    rewrite E. lia.
  - replace (createdAt + 1 - createdAt) with 1 by lia.
    assert (E : nextReport Hour 0 1 = Hour) by reflexivity.
    rewrite E. reflexivity.
  - replace (createdAt + 3 * Hour - createdAt) with (3 * Hour) by lia.
    assert (E : nextReport Hour 0 (3 * Hour) = 3 * Hour) by reflexivity.
    rewrite E. reflexivity.
Qed.

(** The cadence of section 8 at the loop: an hourly report, a reporter
    started 90 minutes after the seed was created; the tick one minute
    later is not due, the tick at two hours is. *)
Lemma first_tick_waits_for_next (cl : ClusterSeed) :
  let rep := {| conf := leaderConfig; cluster := Some cl; lastReport := zeroTime |} in
  let T0 := CreatedAt cl in
  exists st,
    running_start reportInterval rep (T0 + 90 * Minute) = Returned st
    /\ next st = T0 + 2 * Hour
    /\ due reportInterval st (T0 + 91 * Minute) = false
    /\ due reportInterval st (T0 + 2 * Hour) = true.
Proof.
  intros rep T0.
  assert (Hi : 0 < reportInterval <= maxDuration)
    by (unfold reportInterval, maxDuration, maxInt64, Hour, Minute, Second; lia).
  destruct (running_start_seeds_lastReport_aux reportInterval rep cl (T0 + 90 * Minute)
              Hi eq_refl eq_refl) as [st [Hs [Hn [_ Hd]]]].
  exists st. split; [exact Hs|].
  assert (Hnext : next st = T0 + 2 * Hour).
  { rewrite Hn. apply (proj1 (nextReport_cadence T0)). }
  split; [exact Hnext|]. split.
  - destruct (due reportInterval st (T0 + 91 * Minute)) eqn:E; [|reflexivity].
    apply Hd in E. rewrite Hnext in E.
    unfold Hour, Minute, Second in E. lia.
  - apply Hd. rewrite Hnext. lia.
Qed.

(** C2: with an hourly interval, one nanosecond after the 2503rd hour
    since [createdAt], the conversion of the elapsed time to [float64]
    rounds the nanosecond away: [nextReport] returns the 2503rd hour
    itself, which is before [now]. *)
Theorem nextReport_before_now_past_2_53_ns (createdAt : Time) :
  let now := createdAt + 2503 * Hour + 1 in
  0 < Hour
  /\ createdAt <= now
  /\ float64_of_int64 (Sub now createdAt) = float64_of_int64 (2503 * Hour)
  /\ nextReport Hour createdAt now = createdAt + 2503 * Hour
  /\ nextReport Hour createdAt now < now.
Proof.
  intros now.
  assert (Hs : Sub now createdAt = 9010800000000001).
  { unfold now. rewrite Sub_in_range;
      unfold minDuration, maxDuration, minInt64, maxInt64, Hour, Minute, Second; lia. }
  assert (Hn : nextReport Hour createdAt now = createdAt + 2503 * Hour).
  { unfold nextReport. rewrite Hs. unfold Add. f_equal. }
  split; [reflexivity|]. split; [unfold now, Hour, Minute, Second; lia|].
  split; [rewrite Hs; reflexivity|].
  split; [exact Hn|].
  rewrite Hn. unfold now. lia.
Qed.

(** * Further properties of the reporter *)

(** ** What a follower does to the stores *)

Lemma afterReadError_follower (n : Z) (err : error) :
  afterReadError FollowerCall n err = AtRead FollowerCall n.
Proof. reflexivity. Qed.

Lemma step_follower (w : World) (p : pstate) (e : Env) :
  follower_point p = true ->
  let '(w', p', cs) := step w p e in
  follower_point p' = true
  /\ kvs w' = kvs w
  /\ (object w' = object w \/ object w' = None)
  /\ forallb (fun c => negb (writes_store c)) cs = true
  /\ (forall cl, p' = Resolved (Some cl) ->
        p = Resolved (Some cl) \/ object w = Some (Encoded cl)).
Proof.
  destruct p as [|[s|] n|[s|] err|s|cl]; simpl; try discriminate; intros _.
  - destruct (env_cancelled e); simpl.
    + repeat split; auto. discriminate.
    + destruct (readSeedFile (env_fault e) w) as [seed|err] eqn:Hr; simpl.
      * apply readSeedFile_found in Hr.
        repeat split; auto. intros cl H. inversion H; subst. now right.
      * destruct (attemptNumber <? _); simpl; repeat split; auto; discriminate.
  - unfold DeleteObject. destruct (env_fault e); simpl; repeat split; auto; discriminate.
  - repeat split; auto.
Qed.

(** X1: a follower never calls [CAS] or [PutObject]: whatever happens
    around it, its [init] leaves the key as it was and the object as it was
    or deleted, and its calls are reads and deletes only. *)
Theorem follower_never_writes (rep : Reporter) (w : World) (es : list Env) :
  Leader (conf rep) = false ->
  let '(w', p', cs) := run w (init_start (conf rep)) es in
  kvs w' = kvs w
  /\ (object w' = object w \/ object w' = None)
  /\ forallb (fun c => negb (writes_store c)) cs = true.
Proof.
  intros HL. unfold init_start. rewrite HL.
  assert (G : forall es w p, follower_point p = true ->
            let '(w', p', cs) := run w p es in
            follower_point p' = true /\ kvs w' = kvs w
            /\ (object w' = object w \/ object w' = None)
            /\ forallb (fun c => negb (writes_store c)) cs = true).
  { clear. induction es as [|e es IH]; intros w p Hp; simpl.
    - auto.
    - pose proof (step_follower w p e Hp) as Hs.
      destruct (step w p e) as [[w1 p1] c1].
      destruct Hs as [Hp1 [Hk1 [Ho1 [Hc1 _]]]].
      specialize (IH w1 p1 Hp1).
      destruct (run w1 p1 es) as [[w2 p2] c2].
      destruct IH as [Hp2 [Hk2 [Ho2 Hc2]]].
      split; [exact Hp2|]. split; [congruence|].
      split.
      + destruct Ho2 as [Ho2|Ho2]; [|now right].
        destruct Ho1 as [Ho1|Ho1]; [left|right]; congruence.
      + rewrite forallb_app, Hc1, Hc2. reflexivity. }
  specialize (G es w (AtRead FollowerCall 0) eq_refl).
  destruct (run w (AtRead FollowerCall 0) es) as [[w' p'] cs].
  destruct G as [_ G]. exact G.
Qed.

Lemma follower_never_writes_witness :
  let rep := {| conf := followerConfig; cluster := None; lastReport := zeroTime |} in
  let w := {| kvs := Some KVForeign; object := Some Malformed |} in
  let '(w', p', cs) := run w (init_start (conf rep)) (repeat idle 7) in
  kvs w' = kvs w
  /\ (object w' = object w \/ object w' = None)
  /\ forallb (fun c => negb (writes_store c)) cs = true.
Proof.
  intros rep w.
  exact (follower_never_writes rep w (repeat idle 7) eq_refl).
Defined.

(** X2: a follower that resolves a seed on its own resolves the seed the
    object held when it started: it reads, it may delete, it never makes a
    seed up. *)
Theorem follower_resolves_what_it_found (w w' : World) (es : list Env)
    (cl : ClusterSeed) (cs : list call) :
  fetchSeed FollowerCall w es = (w', Resolved (Some cl), cs) ->
  object w = Some (Encoded cl).
Proof.
  unfold fetchSeed.
  assert (G : forall es w p w' cs,
            follower_point p = true ->
            run w p es = (w', Resolved (Some cl), cs) ->
            p = Resolved (Some cl) \/ object w = Some (Encoded cl)).
  { clear. induction es as [|e es IH]; intros w p w' cs Hp H; simpl in H.
    - inversion H; subst. now left.
    - pose proof (step_follower w p e Hp) as Hs.
      destruct (step w p e) as [[w1 p1] c1].
      destruct Hs as [Hp1 [_ [Ho1 [_ Hr1]]]].
      destruct (run w1 p1 es) as [[w2 p2] c2] eqn:Hrun.
      inversion H; subst.
      destruct (IH w1 p1 w' c2 Hp1 Hrun) as [E|E].
      + now apply Hr1.
      + right. destruct Ho1 as [Ho1|Ho1]; congruence. }
  intros H.
  destruct (G es w (AtRead FollowerCall 0) w' cs eq_refl H) as [E|E];
    [discriminate|exact E].
Qed.

Lemma follower_resolves_what_it_found_witness :
  object {| kvs := None; object := Some (Encoded seedC) |} = Some (Encoded seedC).
Proof.
  exact (follower_resolves_what_it_found
           {| kvs := None; object := Some (Encoded seedC) |}
           {| kvs := None; object := Some (Encoded seedC) |}
           [idle] seedC [CallGet (inl seedC)] eq_refl).
Defined.

(** ** What a delete costs *)

Lemma count_app (f : call -> bool) (a b : list call) :
  count f (a ++ b) = count f a + count f b.
Proof.
  unfold count. rewrite filter_app, length_app. lia.
Qed.

Lemma counted_afterReadError (k : caller) (n : Z) (err : error) :
  0 <= n -> 0 <= counted (afterReadError k n err) <= n.
Proof.
  intros Hn.
  destruct (afterReadError_cases k n err) as [R|[s [_ [_ R]]]]; rewrite R; simpl; lia.
Qed.

Lemma count_nil (f : call -> bool) : count f [] = 0.
Proof. reflexivity. Qed.

Lemma count_one (f : call -> bool) (c : call) :
  count f [c] = if f c then 1 else 0.
Proof. unfold count. simpl. now destruct (f c). Qed.

Section Counting.

#[local] Arguments count : simpl never.
#[local] Arguments Z.mul : simpl never.
#[local] Arguments Z.add : simpl never.

Lemma step_counted (w : World) (p : pstate) (e : Env) :
  pstate_ok p ->
  let '(_, p', cs) := step w p e in
  (attemptNumber + 1) * count is_delete cs + counted p'
  <= count is_failed_read cs + counted p.
Proof.
  destruct p as [|k n|k err|seed|cl]; simpl; intros Hp.
  - destruct (electOrAdopt _ _ _) as [kv' [err|[seed' elected]]];
      rewrite !count_one; simpl; unfold attemptNumber; lia.
  - destruct (env_cancelled e).
    + rewrite !count_nil.
      destruct (fetchReturn_context k) as [R|R]; rewrite R;
        unfold attemptNumber in *; simpl; lia.
    + destruct (readSeedFile (env_fault e) w) as [seed|err].
      * rewrite fetchReturn_found, !count_one. simpl.
        unfold attemptNumber in *. lia.
      * destruct (IsObjectNotFoundErr err) eqn:E; simpl.
        -- destruct (attemptNumber <? n) eqn:E2;
             rewrite !count_one; simpl; rewrite E; simpl.
           ++ apply Z.ltb_lt in E2. unfold attemptNumber in *. lia.
           ++ pose proof (counted_afterReadError k n err (proj1 Hp)).
              unfold attemptNumber in *. lia.
        -- destruct (attemptNumber <? n + 1) eqn:E2;
             rewrite !count_one; simpl; rewrite E; simpl.
           ++ apply Z.ltb_lt in E2. unfold attemptNumber in *. lia.
           ++ assert (Hn : 0 <= n + 1) by lia.
              pose proof (counted_afterReadError k (n + 1) err Hn).
              unfold attemptNumber in *. lia.
  - destruct (DeleteObject (env_fault e) w) as [w' derr].
    pose proof (counted_afterReadError k 0 err (Z.le_refl 0)).
    rewrite !count_one. simpl. unfold attemptNumber in *. lia.
  - destruct (writeSeedFile (env_fault e) w seed) as [w' [err|]];
      rewrite !count_one; simpl; unfold attemptNumber; lia.
  - rewrite !count_nil. unfold attemptNumber. lia.
Qed.

Lemma counted_nonneg (p : pstate) : pstate_ok p -> 0 <= counted p.
Proof.
  destruct p; simpl; unfold attemptNumber; lia.
Qed.

Lemma run_counted (es : list Env) (w : World) (p : pstate) :
  pstate_ok p ->
  let '(_, p', cs) := run w p es in
  pstate_ok p'
  /\ (attemptNumber + 1) * count is_delete cs + counted p'
     <= count is_failed_read cs + counted p.
Proof.
  revert w p. induction es as [|e es IH]; intros w p Hp; simpl.
  - split; [exact Hp|]. rewrite !count_nil. lia.
  - pose proof (step_counted w p e Hp) as Hs.
    pose proof (step_pstate_ok w p e Hp) as Hok.
    destruct (step w p e) as [[w1 p1] c1]. simpl in Hok.
    specialize (IH w1 p1 Hok).
    destruct (run w1 p1 es) as [[w2 p2] c2].
    destruct IH as [Hok2 IH].
    split; [exact Hok2|].
    rewrite !count_app. lia.
Qed.

End Counting.

(** X3: every [DeleteObject] of a run of [init] is paid for by five
    failed reads of its own: five times the number of deletes is at most
    the number of reads that failed with something else than "not found". *)
Theorem delete_costs_five_failed_reads (c : Config) (w : World) (es : list Env) :
  let '(_, _, cs) := run w (init_start c) es in
  5 * count is_delete cs <= count is_failed_read cs.
Proof.
  assert (Hp : pstate_ok (init_start c)).
  { unfold init_start. destruct (Leader c); simpl; unfold attemptNumber; auto; lia. }
  pose proof (run_counted es w (init_start c) Hp) as H.
  destruct (run w (init_start c) es) as [[w' p'] cs].
  destruct H as [Hok H].
  pose proof (counted_nonneg p' Hok).
  assert (counted (init_start c) = 0)
    by (unfold init_start; destruct (Leader c); reflexivity).
  unfold attemptNumber in H. lia.
Qed.

(** X4: [fetchSeed] counts any failed read that is not "not found": five
    reads that fail in a row for a passing reason lead to the
    [DeleteObject] of an object that decodes, and the count starts again. *)
Theorem passing_failures_delete_a_good_object
    (k : caller) (kv : option KVValue) (seed : ClusterSeed) (es : list Env) (e : Env) :
  List.length es = 5%nat ->
  forallb faulty es = true ->
  quiet e = true ->
  fetchSeed k {| kvs := kv; object := Some (Encoded seed) |} (es ++ [e])
  = ({| kvs := kv; object := None |}, AtRead k 0,
     repeat (CallGet (inr ErrIO)) 5 ++ [CallDelete None]).
Proof.
  intros Hlen Hf Q.
  do 5 (destruct es as [|[? ? ? ? ?] es]; [discriminate Hlen|]).
  destruct es; [|discriminate Hlen].
  destruct e as [? ? ? ? ?].
  unfold faulty in Hf. unfold quiet in Q. simpl in Hf, Q.
  repeat match goal with
         | H : _ && _ = true |- _ => apply andb_true_iff in H; destruct H
         | H : negb _ = true |- _ => apply negb_true_iff in H
         end.
  subst.
  destruct k; reflexivity.
Qed.

Lemma passing_failures_delete_a_good_object_witness :
  let bad := {| env_uid := ""; env_version := ""; env_now := 0;
                env_fault := true; env_cancelled := false |} in
  fetchSeed FollowerCall {| kvs := None; object := Some (Encoded seedC) |}
    (repeat bad 5 ++ [idle])
  = ({| kvs := None; object := None |}, AtRead FollowerCall 0,
     repeat (CallGet (inr ErrIO)) 5 ++ [CallDelete None]).
Proof.
  intros bad.
  exact (passing_failures_delete_a_good_object FollowerCall None seedC
           (repeat bad 5) idle eq_refl eq_refl eq_refl).
Defined.

(** ** When [running] dereferences nil *)

Lemma step_leader (w : World) (p : pstate) (e : Env) :
  leader_point p = true -> leader_point (snd (fst (step w p e))) = true.
Proof.
  destruct p as [|[s|] n|[s|] err|s|[cl|]]; simpl; try discriminate; intros _.
  - destruct (electOrAdopt _ _ _) as [kv' [err|[seed' elected]]]; reflexivity.
  - destruct (env_cancelled e); [reflexivity|].
    destruct (readSeedFile (env_fault e) w) as [seed|err]; simpl; [reflexivity|].
    destruct (attemptNumber <? _); simpl; [reflexivity|].
    destruct (afterReadError_cases (LeaderCall s)
                (if negb (IsObjectNotFoundErr err) then n + 1 else n) err)
      as [R|[s' [_ [_ R]]]]; rewrite R; reflexivity.
  - destruct (DeleteObject (env_fault e) w) as [w' derr]. simpl.
    destruct (afterReadError_cases (LeaderCall s) 0 err) as [R|[s' [_ [_ R]]]];
      rewrite R; reflexivity.
  - destruct (writeSeedFile (env_fault e) w s) as [w' [err|]]; reflexivity.
  - reflexivity.
Qed.

Lemma run_leader (es : list Env) (w : World) (p : pstate) :
  leader_point p = true -> leader_point (snd (fst (run w p es))) = true.
Proof.
  revert w p. induction es as [|e es IH]; intros w p Hp; simpl.
  - exact Hp.
  - pose proof (step_leader w p e Hp) as Hs.
    destruct (step w p e) as [[w1 p1] c1]. simpl in Hs.
    specialize (IH w1 p1 Hs).
    destruct (run w1 p1 es) as [[w2 p2] c2]. exact IH.
Qed.

Lemma run_keeps_trying_uncancelled (es : list Env) (w : World) (p : pstate) :
  existsb env_cancelled es = false ->
  p <> Resolved None ->
  snd (fst (run w p es)) <> Resolved None.
Proof.
  revert w p. induction es as [|e es IH]; intros w p Hc Hp; simpl.
  - exact Hp.
  - simpl in Hc. apply orb_false_iff in Hc. destruct Hc as [Hc1 Hc2].
    pose proof (step_keeps_trying w p e Hc1 Hp) as Hs.
    destruct (step w p e) as [[w1 p1] c1]. simpl in Hs.
    specialize (IH w1 p1 Hc2 Hs).
    destruct (run w1 p1 es) as [[w2 p2] c2]. exact IH.
Qed.

(** X5: [running] reads through a nil [rep.cluster] only in a follower
    whose context was done at one of its checks: a leader's [init] never
    returns nil, and a follower's returns nil only on cancellation. *)
Theorem running_panics_only_for_cancelled_follower
    (interval : Duration) (rep : Reporter) (w : World) (es : list Env)
    (now : Time) (evs : list LoopEvent) :
  running interval rep w es now evs = Some Panicked ->
  Leader (conf rep) = false /\ existsb env_cancelled es = true.
Proof.
  unfold running, init, init_start, running_start. intros H.
  destruct (Leader (conf rep)) eqn:HL.
  - pose proof (run_leader es w AtElect eq_refl) as Hl.
    destruct (run w AtElect es) as [[w' p'] cs]. simpl in Hl.
    destruct p' as [| | | |[cl|]]; simpl in *; try discriminate.
  - split; [reflexivity|].
    destruct (existsb env_cancelled es) eqn:Hc; [reflexivity|].
    assert (Hne : AtRead FollowerCall 0 <> Resolved None) by discriminate.
    pose proof (run_keeps_trying_uncancelled es w _ Hc Hne) as Hk.
    destruct (run w (AtRead FollowerCall 0) es) as [[w' p'] cs]. simpl in Hk.
    destruct p' as [| | | |[cl|]]; simpl in *; try discriminate.
    now elim Hk.
Qed.

Lemma running_panics_only_for_cancelled_follower_witness :
  let rep := {| conf := followerConfig; cluster := None; lastReport := zeroTime |} in
  Leader (conf rep) = false /\ existsb env_cancelled [idle; cancelled idle] = true.
Proof.
  intros rep.
  exact (running_panics_only_for_cancelled_follower reportInterval rep fresh_world
           [idle; cancelled idle] 0 [] eq_refl).
Defined.

(** ** A leader on its own *)

(** X6: a leader alone, on whatever the stores hold, resolves a seed
    within nine steps on which nothing fails, and the object then encodes
    the seed it resolved; nine are needed when the object does not decode
    (the election, five reads, the delete, a read, the write). *)
Theorem lone_leader_resolves_within_nine_steps (w : World) (es : list Env) :
  List.length es = 9%nat ->
  forallb quiet es = true ->
  exists w' cl cs,
    initLeader w es = (w', Resolved (Some cl), cs)
    /\ object w' = Some (Encoded cl)
    /\ (forall b, object w = Some (Encoded b) -> cl = b /\ object w' = object w).
Proof.
  intros Hlen Hq.
  destruct es as [|[u v t0 f0 c0] es]; [discriminate Hlen|].
  do 8 (destruct es as [|[? ? ? ? ?] es]; [discriminate Hlen|]).
  destruct es; [|discriminate Hlen].
  unfold quiet in Hq. simpl in Hq.
  repeat match goal with
         | H : _ && _ = true |- _ => apply andb_true_iff in H; destruct H
         | H : negb _ = true |- _ => apply negb_true_iff in H
         end.
  subst.
  destruct w as [kv obj].
  unfold initLeader.
  destruct kv as [[s|]|]; destruct obj as [[b|]|];
    try (destruct (String.eqb (UID s) u) eqn:E);
    unfold run, step at 1, electOrAdopt, CAS, casCallback;
    cbn -[String.eqb]; rewrite ?E; cbn -[String.eqb];
    do 3 eexists; (split; [reflexivity|]); (split; [reflexivity|]);
    intros b' Hb; inversion Hb; subst; auto.
Qed.

Lemma lone_leader_resolves_within_nine_steps_witness :
  exists w' cl cs,
    initLeader {| kvs := Some KVForeign; object := Some Malformed |}
               (env_of seedA :: repeat idle 8)
    = (w', Resolved (Some cl), cs)
    /\ object w' = Some (Encoded cl)
    /\ (forall b, object {| kvs := Some KVForeign; object := Some Malformed |}
                  = Some (Encoded b) ->
        cl = b /\ object w' = object {| kvs := Some KVForeign; object := Some Malformed |}).
Proof.
  exact (lone_leader_resolves_within_nine_steps
           {| kvs := Some KVForeign; object := Some Malformed |}
           (env_of seedA :: repeat idle 8) eq_refl eq_refl).
Defined.

(** ** The UID under the key *)

Lemma electOrAdopt_keeps_uid (unavailable : bool) (a candidate : ClusterSeed) :
  exists b, fst (electOrAdopt unavailable (Some (KVSeed a)) candidate) = Some (KVSeed b)
            /\ UID b = UID a.
Proof.
  unfold electOrAdopt, CAS. destruct unavailable; simpl.
  - exists a. auto.
  - destruct (String.eqb (UID a) (UID candidate)) eqn:E; simpl.
    + apply String.eqb_eq in E. exists candidate. auto.
    + exists a. auto.
Qed.

Lemma step_keeps_uid (w : World) (p : pstate) (e : Env) (a : ClusterSeed) :
  kvs w = Some (KVSeed a) ->
  exists b, kvs (fst (fst (step w p e))) = Some (KVSeed b) /\ UID b = UID a.
Proof.
  intros Hkv.
  destruct p as [|k n|k err|seed|cl]; simpl.
  - rewrite Hkv.
    destruct (electOrAdopt_keeps_uid (env_fault e) a
                {| UID := env_uid e; PrometheusVersion := env_version e;
                   CreatedAt := env_now e |}) as [b [Hb Hu]].
    destruct (electOrAdopt _ _ _) as [kv' [err|[seed' elected]]]; simpl in *.
    + exists a. auto.
    + exists b. auto.
  - destruct (env_cancelled e); simpl; [eauto|].
    destruct (readSeedFile (env_fault e) w) as [seed|err]; simpl; [eauto|].
    destruct (attemptNumber <? _); simpl; eauto.
  - unfold DeleteObject. destruct (env_fault e); simpl; eauto.
  - unfold writeSeedFile. destruct (env_fault e); simpl; eauto.
  - eauto.
Qed.

(** X7: once the key holds a seed, no election by any process ever
    replaces it by a seed with another UID, whatever candidates are
    proposed and whatever fails. *)
Theorem key_uid_never_changes (s s' : System) (sched : list (nat * Env))
    (a : ClusterSeed) :
  kvs (world s) = Some (KVSeed a) ->
  sys_run s sched = Some s' ->
  exists b, kvs (world s') = Some (KVSeed b) /\ UID b = UID a.
Proof.
  revert s a. induction sched as [|[i e] rest IH]; intros s a Hkv H; simpl in H.
  - inversion H; subst. eauto.
  - destruct (sys_step s i e) as [s1|] eqn:E; [|discriminate].
    unfold sys_step in E.
    destruct (is_AtElect (procs s i) && mem (env_uid e) (issued s)); [discriminate|].
    destruct (step_keeps_uid (world s) (procs s i) e a Hkv) as [b [Hb Hu]].
    destruct (step (world s) (procs s i) e) as [[w1 p1] c1]. simpl in Hb.
    inversion E; subst s1; clear E.
    destruct (IH _ b (Hb : kvs (world (mkSystem w1 _ _ _)) = _) H) as [c [Hc Hu']].
    exists c. split; [exact Hc|congruence].
Qed.

Lemma key_uid_never_changes_witness :
  match sys_run (sys_init {| kvs := Some (KVSeed seedC); object := None |}
                          (fun _ => leaderConfig)) race with
  | Some s' => exists b, kvs (world s') = Some (KVSeed b) /\ UID b = UID seedC
  | None => False
  end.
Proof.
  destruct (sys_run (sys_init {| kvs := Some (KVSeed seedC); object := None |}
                              (fun _ => leaderConfig)) race) as [s'|] eqn:E.
  - exact (key_uid_never_changes
             (sys_init {| kvs := Some (KVSeed seedC); object := None |}
                       (fun _ => leaderConfig)) s' race seedC eq_refl E).
  - vm_compute in E. discriminate E.
Defined.

(** ** The loop of [running] *)

Lemma running_loop_ticks (interval : Duration) (l : list (Time * ReportRun))
    (st : RunState) (rest : list LoopEvent) :
  running_loop interval st (ticks l ++ rest)
  = running_loop interval (fst (running_loop interval st (ticks l))) rest
  /\ snd (running_loop interval st (ticks l)) = None.
Proof.
  revert st. induction l as [|[now report] l IH]; intros st; simpl.
  - auto.
  - apply IH.
Qed.

(** X8: the loop of [running] returns only when the context is done: it
    goes through every tick before that, returns [ctx.Err()] with the
    schedule as those ticks left it, and looks at nothing that comes
    after. *)
Theorem running_loop_returns_on_cancel_only (interval : Duration) (st : RunState)
    (l : list (Time * ReportRun)) (rest : list LoopEvent) :
  snd (running_loop interval st (ticks l)) = None
  /\ running_loop interval st (ticks l ++ CtxDone :: rest)
     = (fst (running_loop interval st (ticks l)), Some ErrContext).
Proof.
  destruct (running_loop_ticks interval l st (CtxDone :: rest)) as [H1 H2].
  split; [exact H2|]. rewrite H1. reflexivity.
Qed.

(** X9: however the ticks go, [next] moves forward in whole intervals,
    by at most one interval per tick; if it has not moved nothing has
    changed, and if it has, [lastReport] is one interval behind it. *)
Theorem next_moves_in_whole_intervals (interval : Duration) (st : RunState)
    (l : list (Time * ReportRun)) :
  let st' := fst (running_loop interval st (ticks l)) in
  exists k,
    0 <= k <= Z.of_nat (List.length l)
    /\ next st' = next st + k * interval
    /\ (k = 0 -> st' = st)
    /\ (0 < k -> rs_lastReport st' = next st' - interval).
Proof.
  revert st. induction l as [|[now report] l IH]; intros st.
  - exists 0. simpl. repeat split; auto; lia.
  - cbn [ticks map running_loop].
    destruct (IH (fst (tick interval st now report))) as [k [Hk [Hn [H0 Hl]]]].
    fold (ticks l) in *.
    unfold tick in *.
    destruct (notDue interval st now).
    + exists k. cbn [fst] in *. cbn [List.length]. repeat split; auto; lia.
    + destruct (ru_err report).
      * exists k. cbn [fst] in *. cbn [List.length]. repeat split; auto; lia.
      * exists (k + 1). cbn [fst next rs_lastReport] in *. cbn [List.length].
        unfold Add in *.
        split; [lia|]. split; [lia|]. split; [lia|].
        intros _. destruct (Z.eq_dec k 0) as [->|Hne].
        -- rewrite (H0 eq_refl). simpl. lia.
        -- apply Hl. lia.
Qed.

(** X10: after a report has gone out for [next], no tick is due before
    [next + interval], and every tick from then on is: one report per
    interval, and a reporter that is late works its backlog off one
    interval per tick. *)
Theorem one_report_per_interval (interval : Duration) (st st' : RunState)
    (now : Time) (report : ReportRun) :
  0 < interval <= maxDuration ->
  scheduled interval st ->
  tick interval st now report = (st', TickReported) ->
  next st <= now
  /\ forall t, due interval st' t = true <-> next st + interval <= t.
Proof.
  intros Hi Hs Ht.
  pose proof (scheduled_one_interval_behind interval st Hs) as Hinv.
  pose proof (scheduled_tick interval st now report Hs) as Hs'.
  rewrite Ht in Hs'. simpl in Hs'.
  pose proof (scheduled_one_interval_behind interval st' Hs') as Hinv'.
  unfold tick in Ht.
  destruct (notDue interval st now) eqn:Hd; [discriminate|].
  destruct (ru_err report); [discriminate|].
  inversion Ht; subst st'; clear Ht.
  split.
  - apply (due_from_next interval st now Hi Hinv).
    unfold due. now rewrite Hd.
  - intros t. rewrite (due_from_next interval _ t Hi Hinv'). simpl. unfold Add. lia.
Qed.

Lemma one_report_per_interval_witness :
  let st := {| next := 1000 + 2 * Hour; rs_lastReport := 1000 + Hour |} in
  let st' := {| next := 1000 + 3 * Hour; rs_lastReport := 1000 + 2 * Hour |} in
  next st <= 1000 + 2 * Hour + Minute
  /\ forall t, due reportInterval st' t = true <-> next st + reportInterval <= t.
Proof.
  intros st st'.
  assert (Hi : 0 < reportInterval <= maxDuration)
    by (unfold reportInterval, maxDuration, maxInt64, Hour, Minute, Second; lia).
  assert (Hs : scheduled reportInterval st).
  { apply (scheduled_start reportInterval
             {| conf := leaderConfig;
                cluster := Some {| UID := "abc"; PrometheusVersion := "v";
                                   CreatedAt := 1000 |};
                lastReport := zeroTime |}
             (1000 + 90 * Minute)); reflexivity. }
  exact (one_report_per_interval reportInterval st st' (1000 + 2 * Hour + Minute)
           nothingSent Hi Hs eq_refl).
Defined.

(** ** [reportUsage] at its edges *)

(** X11: when the context is done before the first attempt,
    [reportUsage] returns nil without calling [sendReport] at all, and a
    due tick then moves the schedule on as if the report had been sent. *)
Theorem cancelled_report_counts_as_sent (send : Z -> option error) (done : Z -> bool)
    (fuel : nat) (interval : Duration) (st : RunState) (now : Time) :
  done 0 = true ->
  due interval st now = true ->
  reportUsage (S fuel) send done = Some nothingSent
  /\ tick interval st now nothingSent
     = ({| next := Add (next st) interval; rs_lastReport := next st |}, TickReported).
Proof.
  intros Hd Hdue. split.
  - unfold reportUsage, reportUsage_loop, backoff_New, Ongoing, NumRetries. simpl.
    rewrite Hd. reflexivity.
  - unfold tick. unfold due in Hdue. apply negb_true_iff in Hdue.
    rewrite Hdue. reflexivity.
Qed.

Lemma cancelled_report_counts_as_sent_witness :
  let st := {| next := 1000 + 2 * Hour; rs_lastReport := 1000 + Hour |} in
  reportUsage 6 (fun _ => Some ErrIO) (fun _ => true) = Some nothingSent
  /\ tick reportInterval st (1000 + 2 * Hour) nothingSent
     = ({| next := Add (next st) reportInterval; rs_lastReport := next st |},
        TickReported).
Proof.
  intros st.
  exact (cancelled_report_counts_as_sent (fun _ => Some ErrIO) (fun _ => true) 5
           reportInterval st (1000 + 2 * Hour) eq_refl eq_refl).
Defined.


(** ** Where a resolved seed comes from *)

Lemma step_sources (w : World) (p : pstate) (e : Env) :
  let '(w', p', cs) := step w p e in
  (forall b, object w' = Some b ->
     object w = Some b \/ exists seed, b = Encoded seed /\ In (CallPut seed None) cs)
  /\ (forall r, p' = Resolved (Some r) ->
        p = Resolved (Some r) \/ object w = Some (Encoded r) \/ In (CallPut r None) cs).
Proof.
  destruct p as [|k n|k err|seed|cl]; simpl.
  - destruct (electOrAdopt _ _ _) as [kv' [err|[seed' elected]]]; simpl;
      split; auto; discriminate.
  - destruct (env_cancelled e); simpl.
    + split; [auto|]. intros r H.
      destruct (fetchReturn_context k) as [R|R]; rewrite R in H; discriminate.
    + destruct (readSeedFile (env_fault e) w) as [seed|err] eqn:Hr; simpl.
      * apply readSeedFile_found in Hr. split; [auto|].
        intros r H. rewrite fetchReturn_found in H. inversion H; subst. auto.
      * destruct (attemptNumber <? _); simpl; split; auto; try discriminate.
        intros r H.
        destruct (afterReadError_cases k
                    (if negb (IsObjectNotFoundErr err) then n + 1 else n) err)
          as [R|[s' [_ [_ R]]]]; rewrite R in H; discriminate.
  - unfold DeleteObject. destruct (env_fault e); simpl; split; auto; try discriminate;
      intros r H;
      destruct (afterReadError_cases k 0 err) as [R|[s' [_ [_ R]]]];
      rewrite R in H; discriminate.
  - unfold writeSeedFile. destruct (env_fault e); simpl.
    + split; [auto|discriminate].
    + split.
      * intros b H. inversion H; subst. right. exists seed. auto.
      * intros r H. inversion H; subst. auto.
  - split; auto.
Qed.

Lemma in_history_new (i : nat) (c : call) (cs : list call) (h : list (nat * call)) :
  In c cs -> In (i, c) (map (pair i) (rev cs) ++ h).
Proof.
  intros H. apply in_or_app. left. apply in_map. now apply in_rev in H.
Qed.

Lemma in_history_old (i j : nat) (c : call) (cs : list call) (h : list (nat * call)) :
  In (j, c) (map (pair i) (rev cs) ++ h) -> (j = i /\ In c cs) \/ In (j, c) h.
Proof.
  intros H. apply in_app_or in H. destruct H as [H|H]; [|now right].
  apply in_map_iff in H. destruct H as [x [Hx Hin]].
  inversion Hx; subst. left. split; [reflexivity|]. now apply in_rev.
Qed.

Lemma sys_step_provenance (roles : nat -> Config) (s s' : System) (i : nat) (e : Env) :
  provenance roles s -> sys_step s i e = Some s' -> provenance roles s'.
Proof.
  intros P H. unfold sys_step in H.
  destruct (is_AtElect (procs s i) && mem (env_uid e) (issued s)); [discriminate|].
  pose proof (step_sources (world s) (procs s i) e) as Hsrc.
  pose proof (step_leader (world s) (procs s i) e) as Hlead.
  pose proof (step_follower (world s) (procs s i) e) as Hfol.
  pose proof (prov_roles roles s P i) as Hrole.
  destruct (step (world s) (procs s i) e) as [[w1 p1] cs].
  simpl in Hlead. destruct Hsrc as [Hobj Hres].
  inversion H; subst s'; clear H.
  constructor; simpl.
  - intros j. destruct (Nat.eq_dec j i) as [->|Hne].
    + rewrite update_same. unfold role_point in *.
      destruct (Leader (roles i)); [now apply Hlead|].
      now destruct (Hfol Hrole) as [Hf _].
    + rewrite update_other by exact Hne. apply (prov_roles roles s P).
  - intros j c Hin Hw.
    apply in_history_old in Hin. destruct Hin as [[-> Hin]|Hin].
    + unfold role_point in Hrole.
      destruct (Leader (roles i)); [reflexivity|].
      destruct (Hfol Hrole) as [_ [_ [_ [Hnw _]]]].
      rewrite forallb_forall in Hnw. specialize (Hnw c Hin).
      rewrite Hw in Hnw. discriminate.
    + now apply (prov_writers roles s P j c).
  - intros b Hb. destruct (Hobj b Hb) as [Ho|[seed [-> Hin]]].
    + destruct (prov_object roles s P b Ho) as [j [seed [-> Hin]]].
      exists j, seed. split; [reflexivity|]. apply in_or_app. now right.
    + exists i, seed. split; [reflexivity|]. now apply in_history_new.
  - intros j r Hj. destruct (Nat.eq_dec j i) as [->|Hne].
    + rewrite update_same in Hj.
      destruct (Hres r Hj) as [Hp|[Ho|Hin]].
      * destruct (prov_resolved roles s P i r Hp) as [j Hin].
        exists j. apply in_or_app. now right.
      * destruct (prov_object roles s P _ Ho) as [j [seed [Heq Hin]]].
        inversion Heq; subst seed. exists j. apply in_or_app. now right.
      * exists i. now apply in_history_new.
    + rewrite update_other in Hj by exact Hne.
      destruct (prov_resolved roles s P j r Hj) as [j' Hin].
      exists j'. apply in_or_app. now right.
Qed.

Lemma sys_run_provenance (roles : nat -> Config) (sched : list (nat * Env))
    (s s' : System) :
  provenance roles s -> sys_run s sched = Some s' -> provenance roles s'.
Proof.
  revert s. induction sched as [|[i e] rest IH]; intros s P H; simpl in H.
  - inversion H. now subst.
  - destruct (sys_step s i e) as [s1|] eqn:E; [|discriminate].
    apply (IH s1); [|exact H].
    exact (sys_step_provenance roles s s1 i e P E).
Qed.

Lemma provenance_init (roles : nat -> Config) :
  provenance roles (sys_init fresh_world roles).
Proof.
  constructor; simpl; try contradiction; try discriminate.
  - intros i. unfold role_point, init_start. destruct (Leader (roles i)); reflexivity.
  - intros i r. unfold init_start. destruct (Leader (roles i)); discriminate.
Qed.

(** X13: on a cluster that starts with neither the key nor the object,
    every seed a process resolves, leader or follower, was written to the
    object store by a [PutObject] of a leader that succeeded; and no
    follower has called [CAS] or [PutObject]. *)
Theorem resolved_seed_was_published_by_a_leader
    (roles : nat -> Config) (sched : list (nat * Env)) (s : System) :
  sys_run (sys_init fresh_world roles) sched = Some s ->
  (forall i r, procs s i = Resolved (Some r) ->
     exists j, Leader (roles j) = true /\ In (j, CallPut r None) (history s))
  /\ (forall i c, In (i, c) (history s) -> writes_store c = true ->
        Leader (roles i) = true).
Proof.
  intros H.
  pose proof (sys_run_provenance roles sched _ s (provenance_init roles) H) as P.
  split.
  - intros i r Hi. destruct (prov_resolved roles s P i r Hi) as [j Hin].
    exists j. split; [|exact Hin].
    now apply (prov_writers roles s P j (CallPut r None)).
  - apply (prov_writers roles s P).
Qed.

Lemma resolved_seed_was_published_by_a_leader_witness :
  match sys_run (sys_init fresh_world one_leader) leader_then_follower with
  | Some s =>
      exists j, Leader (one_leader j) = true /\ In (j, CallPut seedA None) (history s)
  | None => False
  end.
Proof.
  destruct (sys_run (sys_init fresh_world one_leader) leader_then_follower)
    as [s|] eqn:E.
  - pose proof (resolved_seed_was_published_by_a_leader one_leader
                  leader_then_follower s E) as [T _].
    apply (T 1%nat seedA).
    vm_compute in E. inversion E; subst s. reflexivity.
  - vm_compute in E. discriminate E.
Defined.

(** ** Writing the object, on any stores *)

Lemma step_guard (w : World) (p : pstate) (e : Env) :
  pstate_ok p ->
  let '(_, p', cs) := step w p e in
  (cs = [] \/ exists c, cs = [c])
  /\ (forall seed err, In (CallPut seed err) cs -> p = AtWrite seed)
  /\ (forall seed, p' = AtWrite seed -> cs = [CallGet (inr ErrObjectNotFound)]).
Proof.
  assert (Hin : forall (c c' : call), In c [c'] -> c = c')
    by (intros c c' [H|[]]; auto).
  destruct p as [|k n|k err|seed|cl]; simpl; intros Hp.
  - destruct (electOrAdopt _ _ _) as [kv' [err|[seed' elected]]]; simpl;
      (split; [right; eauto|]); (split; [|discriminate]);
      intros sd er H; apply Hin in H; discriminate.
  - destruct (env_cancelled e); simpl.
    + split; [now left|]. split; [contradiction|].
      intros sd H. destruct (fetchReturn_context k) as [R|R]; rewrite R in H; discriminate.
    + destruct (readSeedFile (env_fault e) w) as [seed|err]; simpl.
      * split; [right; eauto|]. split.
        -- intros sd er H; apply Hin in H; discriminate.
        -- intros sd H. rewrite fetchReturn_found in H. discriminate.
      * destruct (attemptNumber <? _); simpl;
          (split; [right; eauto|]);
          (split; [intros sd er H; apply Hin in H; discriminate|]);
          try discriminate.
        intros sd H.
        destruct (afterReadError_cases k
                    (if negb (IsObjectNotFoundErr err) then n + 1 else n) err)
          as [R|[s' [_ [He R]]]]; rewrite R in H; [discriminate|].
        now subst err.
  - destruct (DeleteObject (env_fault e) w) as [w' derr]. simpl.
    split; [right; eauto|]. split.
    + intros sd er H; apply Hin in H; discriminate.
    + intros sd H.
      destruct (afterReadError_cases k 0 err) as [R|[s' [_ [He R]]]];
        rewrite R in H; [discriminate|].
      subst err. discriminate Hp.
  - destruct (writeSeedFile (env_fault e) w seed) as [w' [err|]]; simpl;
      (split; [right; eauto|]); (split; [|discriminate]);
      intros sd er H; apply Hin in H; inversion H; reflexivity.
  - split; [now left|]. split; [contradiction|discriminate].
Qed.

Lemma sys_step_guarded (s s' : System) (i : nat) (e : Env) :
  guarded s -> sys_step s i e = Some s' -> guarded s'.
Proof.
  intros G H. unfold sys_step in H.
  destruct (is_AtElect (procs s i) && mem (env_uid e) (issued s)); [discriminate|].
  pose proof (step_guard (world s) (procs s i) e (guard_local s G i)) as Hg.
  pose proof (step_pstate_ok (world s) (procs s i) e (guard_local s G i)) as Hok.
  destruct (step (world s) (procs s i) e) as [[w1 p1] cs]. simpl in Hok.
  destruct Hg as [Hshape [Hput Hready]].
  inversion H; subst s'; clear H.
  assert (Hothers : forall j sd, j <> i -> procs s j = AtWrite sd ->
            last_call_of j (map (pair i) (rev cs) ++ history s)
            = Some (CallGet (inr ErrObjectNotFound))).
  { intros j sd Hne Hj.
    destruct Hshape as [->|[c ->]]; simpl.
    - now apply (guard_ready s G j sd).
    - apply Nat.eqb_neq in Hne. rewrite Hne. now apply (guard_ready s G j sd). }
  constructor; simpl.
  - destruct Hshape as [->|[c ->]]; simpl; [apply (guard_puts s G)|].
    split; [|apply (guard_puts s G)].
    destruct c; try exact I.
    apply (guard_ready s G i seed). apply (Hput seed err). now left.
  - intros j sd Hj. destruct (Nat.eq_dec j i) as [->|Hne].
    + rewrite update_same in Hj. rewrite (Hready sd Hj). simpl.
      now rewrite Nat.eqb_refl.
    + rewrite update_other in Hj by exact Hne. now apply (Hothers j sd).
  - intros j. destruct (Nat.eq_dec j i) as [->|Hne].
    + rewrite update_same. exact Hok.
    + rewrite update_other by exact Hne. apply (guard_local s G).
Qed.

Lemma guarded_init (w : World) (roles : nat -> Config) :
  guarded (sys_init w roles).
Proof.
  constructor; simpl.
  - exact I.
  - intros i seed. unfold init_start. destruct (Leader (roles i)); discriminate.
  - intros i. unfold init_start.
    destruct (Leader (roles i)); simpl; unfold attemptNumber; auto; lia.
Qed.

(** X14: whatever the key and the object hold when the processes start,
    and in whatever order they step, every [PutObject] comes right after a
    read by the same process that returned "not found": no process writes
    the object after reading a seed from it, or after a read that failed
    for another reason. *)
Theorem put_only_after_not_found (w : World) (roles : nat -> Config)
    (sched : list (nat * Env)) (s : System) :
  sys_run (sys_init w roles) sched = Some s ->
  puts_guarded (history s).
Proof.
  intros H.
  assert (G : forall sched s0, guarded s0 -> sys_run s0 sched = Some s -> guarded s).
  { clear. induction sched as [|[i e] rest IH]; intros s0 G H; simpl in H.
    - inversion H. now subst.
    - destruct (sys_step s0 i e) as [s1|] eqn:E; [|discriminate].
      apply (IH s1); [|exact H].
      exact (sys_step_guarded s0 s1 i e G E). }
  apply (guard_puts s (G sched _ (guarded_init w roles) H)).
Qed.

Lemma put_only_after_not_found_witness :
  match sys_run (sys_init {| kvs := Some KVForeign; object := None |}
                          (fun _ => leaderConfig)) race with
  | Some s => puts_guarded (history s)
  | None => False
  end.
Proof.
  destruct (sys_run (sys_init {| kvs := Some KVForeign; object := None |}
                              (fun _ => leaderConfig)) race) as [s|] eqn:E.
  - exact (put_only_after_not_found _ _ race s E).
  - vm_compute in E. discriminate E.
Defined.

(** ** The age of the seed *)

(** [nextReport] depends on [createdAt] and [now] through the age
    [now - createdAt] only: moving both by the same amount moves the result
    by that amount. *)
Lemma nextReport_depends_on_age_only (interval : Duration)
    (createdAt now shift : Time) :
  nextReport interval (createdAt + shift) (now + shift)
  = nextReport interval createdAt now + shift.
Proof.
  rewrite (nextReport_shift interval (createdAt + shift) (now + shift)).
  rewrite (nextReport_shift interval createdAt now).
  replace (now + shift - (createdAt + shift)) with (now - createdAt) by lia.
  lia.
Qed.
